(** * oapi2proto: the OpenAPI-schema to proto3 translation engine

    A shallow embedding of [cmd/oapi2proto/main.go] and the properties of
    its naming normalizer, reference resolver, allOf merger, type mapper
    and message emitter.

    Modelling conventions.
    - A Go [string] is a byte string ([string] of [ascii]).  The library
      functions [strings.ToUpper], [strings.TrimSpace] and the
      [for _, r := range s] loops are embedded on ASCII text, where bytes
      and runes coincide; statements that depend on it carry an explicit
      ASCII hypothesis.
    - A [*Schema] is an [option Schema] ([None] is the nil pointer), a Go
      map is a [gmap] under an [option] (the nil map), a slice whose
      nil-ness the code tests is a list under an [option].
    - A nil-pointer dereference is the result [Panic]; recursion is bounded
      by a fuel argument and running out of it is [OutOfFuel] (the Go code
      does not terminate on self-referential schemas).
    - The order in which [range] walks a Go map is not fixed by the
      language: it is an oracle [order], indexed by a counter kept in the
      generator state, so that every [range] statement of a run may pick
      its own order. *)

From stdpp Require Import gmap strings list fin_maps sorting.
From Stdlib Require Import Ascii DecimalString.

(** ** Byte strings and the functions of Go's [strings] package *)

Module Strings.

Definition inRange (lo hi c : ascii) : bool :=
  (nat_of_ascii lo <=? nat_of_ascii c) && (nat_of_ascii c <=? nat_of_ascii hi).

Definition isLower (c : ascii) : bool := inRange "a" "z" c.
Definition isUpper (c : ascii) : bool := inRange "A" "Z" c.
Definition isDigit (c : ascii) : bool := inRange "0" "9" c.

Definition upperByte (c : ascii) : ascii :=
  if isLower c then ascii_of_nat (nat_of_ascii c - 32) else c.
Definition lowerByte (c : ascii) : ascii :=
  if isUpper c then ascii_of_nat (nat_of_ascii c + 32) else c.

Fixpoint map (f : ascii → ascii) (s : string) : string :=
  match s with
  | EmptyString => EmptyString
  | String c s' => String (f c) (map f s')
  end.

Fixpoint forallb (f : ascii → bool) (s : string) : bool :=
  match s with
  | EmptyString => true
  | String c s' => f c && forallb f s'
  end.

(** [strings.ToUpper], on ASCII text. *)
Definition ToUpper (s : string) : string := map upperByte s.

(** [strings.ReplaceAll(s, old, new)] for one-byte [old] and [new]. *)
Definition ReplaceAll (old new : ascii) (s : string) : string :=
  map (λ c, if Ascii.eqb c old then new else c) s.

(** [strings.Split(s, sep)] for a one-byte separator: never empty. *)
Fixpoint Split (s : string) (sep : ascii) : list string :=
  match s with
  | EmptyString => [EmptyString]
  | String c s' =>
      if Ascii.eqb c sep then EmptyString :: Split s' sep
      else match Split s' sep with
           | p :: ps => String c p :: ps
           | [] => [String c EmptyString]
           end
  end.

(** [strings.Join(parts, "")]. *)
Fixpoint Join (parts : list string) : string :=
  match parts with
  | [] => EmptyString
  | p :: ps => p +:+ Join ps
  end.

Fixpoint dropWhile (f : ascii → bool) (s : string) : string :=
  match s with
  | EmptyString => EmptyString
  | String c s' => if f c then dropWhile f s' else s
  end.

(** Removes the longest suffix whose bytes all satisfy [f]. *)
Fixpoint dropWhileEnd (f : ascii → bool) (s : string) : string :=
  match s with
  | EmptyString => EmptyString
  | String c s' =>
      match dropWhileEnd f s' with
      | EmptyString => if f c then EmptyString else String c EmptyString
      | r => String c r
      end
  end.

Definition isSpace (c : ascii) : bool :=
  match nat_of_ascii c with
  | 9 | 10 | 11 | 12 | 13 | 32 => true
  | _ => false
  end.

(** [strings.TrimSpace], on ASCII text. *)
Definition TrimSpace (s : string) : string :=
  dropWhileEnd isSpace (dropWhile isSpace s).

(** [strings.Trim(s, cutset)] for a one-byte cutset. *)
Definition Trim (s : string) (cut : ascii) : string :=
  dropWhileEnd (λ c, Ascii.eqb c cut) (dropWhile (λ c, Ascii.eqb c cut) s).

(** The verb [%d] of [fmt.Sprintf] at a non-negative integer. *)
Definition itoa (n : nat) : string := NilZero.string_of_uint (Nat.to_uint n).

End Strings.

(** ** Naming normalizer *)

Definition nonAlnumReplace (s : string) : string :=
  Strings.map (λ c, if Ascii.eqb c "-" then "_"%char
                    else if Ascii.eqb c "." then "_"%char
                    else if Ascii.eqb c " " then "_"%char
                    else c) s.

Definition toEnumValue (s : string) : string :=
  Strings.ReplaceAll " " "_" (Strings.ReplaceAll "-" "_" (Strings.ToUpper s)).

Definition isAllUpper (s : string) : bool :=
  Strings.forallb (λ r, negb (Strings.isLower r)) s.

(** The body of the loop of [upperCamel]: the new value of [parts[i]]. *)
Definition upperCamelPart (p : string) : string :=
  match p with
  | EmptyString => p
  | String c rest =>
      if isAllUpper p && (1 <? String.length p) then p
      else if String.length p =? 1 then Strings.ToUpper p
      else Strings.ToUpper (String c EmptyString) +:+ rest
  end.

Definition upperCamel (s : string) : string :=
  if String.eqb s "" then ""
  else Strings.Join (upperCamelPart <$> Strings.Split s "_").

Definition normalizeMessage (name : string) : string :=
  upperCamel (nonAlnumReplace name).

(** The loop of [lowerSnake]; [i] is the index of the current byte. *)
Fixpoint lowerSnakeLoop (i : nat) (s : string) : string :=
  match s with
  | EmptyString => EmptyString
  | String r s' =>
      if Strings.isUpper r then
        (if 0 <? i then String "_" (String (Strings.lowerByte r) (lowerSnakeLoop (S i) s'))
         else String (Strings.lowerByte r) (lowerSnakeLoop (S i) s'))
      else if Strings.isLower r || Strings.isDigit r then String r (lowerSnakeLoop (S i) s')
      else String "_" (lowerSnakeLoop (S i) s')
  end.

Definition lowerSnake (s : string) : string :=
  Strings.Trim (lowerSnakeLoop 0 (Strings.TrimSpace s)) "_".

Definition normalizeField (name : string) : string :=
  lowerSnake (nonAlnumReplace name).

Definition oneline (s : string) : string :=
  Strings.TrimSpace (Strings.ReplaceAll "010" " " s).

Definition isScalar (t : string) : bool :=
  bool_decide (t ∈ ["string"; "int32"; "int64"; "double"; "float"; "bool"; "bytes"]).

(** An ASCII identifier: letters, digits and the underscore. *)
Definition asciiIdentifier (s : string) : bool :=
  Strings.forallb
    (λ c, Strings.isLower c || Strings.isUpper c || Strings.isDigit c || Ascii.eqb c "_") s.

(** ** Data model *)

(** The struct [Schema].  [Type] is a keyword, hence [Type_]. *)
Inductive Schema : Type := mkSchema {
  Ref : string;
  Type_ : string;
  Format : string;
  Enum : list string;
  Properties : option (gmap string (option Schema));
  Items : option Schema;
  OneOf : option (list (option Schema));
  AllOf : option (list (option Schema));
  AnyOf : option (list (option Schema));
  Required : list string;
  Nullable : bool;
  AddlProps : option Schema;
  Description : string;
}.

(** The zero value [Schema{}]. *)
Definition emptySchema : Schema :=
  mkSchema "" "" "" [] None None None None None [] false None "".

(** A pure Reference node: only [$ref] is set. *)
Definition Reference (ref : string) : Schema :=
  mkSchema ref "" "" [] None None None None None [] false None "".

(** [doc.Components.Schemas]. *)
Abbreviation Registry := (gmap string (option Schema)).

(** The entries of a possibly nil map, and the elements of a possibly nil
    slice: [len] and [range] see a nil one as empty. *)
Definition propsOf (s : Schema) : gmap string (option Schema) :=
  default ∅ (Properties s).
Definition elems {A} (l : option (list A)) : list A := default [] l.

(** What the code can do besides returning. *)
Inductive result (A : Type) : Type :=
  | Ok (a : A)
  | Panic       (* nil pointer dereference *)
  | Fatal       (* [fatal]: message on stderr, exit status 1 *)
  | OutOfFuel.  (* the recursion is deeper than the fuel given *)
Arguments Ok {A} a.
Arguments Panic {A}.
Arguments Fatal {A}.
Arguments OutOfFuel {A}.

(** Sequencing stops at the first result that is not [Ok]; with these
    instances [x ← m; k] is stdpp's notation for it. *)
#[global] Instance result_ret : MRet result := λ A a, Ok a.
#[global] Instance result_bind : MBind result := λ A B k m,
  match m with
  | Ok a => k a
  | Panic => Panic
  | Fatal => Fatal
  | OutOfFuel => OutOfFuel
  end.

(** ** Reference resolver *)

(** [parts[len(parts)-1]] of [strings.Split(ref, "/")]. *)
Definition lastSegment (ref : string) : string :=
  let parts := Strings.Split ref "/" in
  default "" (parts !! (length parts - 1)).

Definition resolveRef (doc : Registry) (s : option Schema) : option Schema :=
  match s with
  | None => Some emptySchema
  | Some s0 =>
      if String.eqb (Ref s0) "" then Some s0
      else
        let parts := Strings.Split (Ref s0) "/" in
        if 0 <? length parts then
          match doc !! lastSegment (Ref s0) with
          | Some tgt => tgt
          | None => Some s0
          end
        else Some s0
  end.

(** ** Type mapper *)

(** The second result of [fieldType]: nil, or the pair
    [[]any{name, schema}]. *)
Abbreviation nestedReq := (option (string * Schema)).

Fixpoint fieldType (fuel : nat) (doc : Registry) (name : string) (s : option Schema)
  : result (string * nestedReq) :=
  match fuel with
  | 0 => OutOfFuel
  | S fuel' =>
    match resolveRef doc s with
    | None => Panic
    | Some s =>
      if 0 <? length (Enum s) then
        Ok (normalizeMessage name, Some (normalizeMessage name, s))
      else if String.eqb (Type_ s) "string" then
        if String.eqb (Format s) "byte" || String.eqb (Format s) "binary"
        then Ok ("bytes", None) else Ok ("string", None)
      else if String.eqb (Type_ s) "integer" then
        if String.eqb (Format s) "int32" then Ok ("int32", None) else Ok ("int64", None)
      else if String.eqb (Type_ s) "number" then
        if String.eqb (Format s) "float" then Ok ("float", None) else Ok ("double", None)
      else if String.eqb (Type_ s) "boolean" then Ok ("bool", None)
      else if String.eqb (Type_ s) "array" then
        match Items s with
        | None => Ok ("repeated string", None)
        | Some items =>
            '(et, nested) ← fieldType fuel' doc (name +:+ "_item") (Some items);
            match nested with
            | Some (n, _) => Ok ("repeated " +:+ n, nested)
            | None => Ok ("repeated " +:+ et, None)
            end
        end
      else if String.eqb (Type_ s) "object" then
        match AddlProps s with
        | Some addl =>
            if size (propsOf s) =? 0 then
              '(vt, nested) ← fieldType fuel' doc (name +:+ "_value") (Some addl);
              match nested with
              | Some (n, _) => Ok ("map<string," +:+ n +:+ ">", nested)
              | None => Ok ("map<string," +:+ vt +:+ ">", None)
              end
            else Ok (normalizeMessage name, Some (normalizeMessage name, s))
        | None => Ok (normalizeMessage name, Some (normalizeMessage name, s))
        end
      else if bool_decide (OneOf s ≠ None) || bool_decide (AllOf s ≠ None)
              || bool_decide (AnyOf s ≠ None) then
        Ok (normalizeMessage name, Some (normalizeMessage name, s))
      else Ok ("string", None)
    end
  end.

Definition scalarType (doc : Registry) (s : option Schema) : result string :=
  match resolveRef doc s with
  | None => Panic
  | Some s =>
      if String.eqb (Type_ s) "string" then Ok "string"
      else if String.eqb (Type_ s) "integer" then
        if String.eqb (Format s) "int32" then Ok "int32" else Ok "int64"
      else if String.eqb (Type_ s) "number" then
        if String.eqb (Format s) "float" then Ok "float" else Ok "double"
      else if String.eqb (Type_ s) "boolean" then Ok "bool"
      else Ok "string"
  end.

(** ** Generation context *)

(** The configuration part of [genContext]; it never changes in a run. *)
Record genContext : Type := mkContext {
  doc : Registry;
  useOptional : bool;
  anyOfMode : string;
  sortFields : bool;
}.

(** What a run mutates: the [strings.Builder], the map [g.visited] (a key
    is only ever set to [true]) and the number of [range] statements over
    maps executed so far. *)
Record genState : Type := mkState {
  out : string;
  visited : gset string;
  tick : nat;
}.

Definition write (text : string) (st : genState) : genState :=
  mkState (out st +:+ text) (visited st) (tick st).

Definition markVisited (name : string) (st : genState) : genState :=
  mkState (out st) ({[name]} ∪ visited st) (tick st).

Definition isVisited (name : string) (st : genState) : bool :=
  bool_decide (name ∈ visited st).

(** One more [range] statement over a map has been executed. *)
Definition nextTick (st : genState) : genState :=
  mkState (out st) (visited st) (S (tick st)).

(** The local type [pending] of [emitMessage]. *)
Abbreviation pending := (string * Schema)%type.

(** The local variables of [emitMessage] that its loops update. *)
Record bodyState : Type := mkBody {
  fieldNum : nat;
  toEmit : list pending;
  gen : genState;
}.

Definition withProperties (s : Schema) (props : gmap string (option Schema)) : Schema :=
  mkSchema (Ref s) (Type_ s) (Format s) (Enum s) (Some props) (Items s)
           (OneOf s) (AllOf s) (AnyOf s) (Required s) (Nullable s) (AddlProps s)
           (Description s).

(** A loop whose body can fail. *)
Fixpoint forEach {A S : Type} (body : S → A → result S) (l : list A) (acc : S) : result S :=
  match l with
  | [] => Ok acc
  | x :: l' => acc' ← body acc x; forEach body l' acc'
  end.

(** [sort.Strings]: the sorted permutation, in byte-wise order. *)
Definition sortStrings (l : list string) : list string := merge_sort String.le l.

(** [m[k]] on a map of pointers: nil when the key is absent. *)
Definition index (m : gmap string (option Schema)) (k : string) : option Schema :=
  mjoin (m !! k).

(** Lines 73-75 of [main]: the three header lines and a blank line. *)
Definition header (pkg goPkg : string) : string :=
  let quote := String "034" EmptyString in
  "syntax = " +:+ quote +:+ "proto3" +:+ quote +:+ ";" +:+ String "010" ""
  +:+ "package " +:+ pkg +:+ ";" +:+ String "010" ""
  +:+ "option go_package = " +:+ quote +:+ goPkg +:+ quote +:+ ";"
  +:+ String "010" (String "010" "").

Section Generator.

(** [order t keys] is the order in which the [t]-th [range] statement of
    the run visits a map whose keys are [keys]. *)
Variable order : nat → list string → list string.
Variable g : genContext.

(** [for k := range m]: the keys, in the order of this [range]. *)
Definition rangeKeys {V} (m : gmap string V) (st : genState) : list string * genState :=
  (order (tick st) (map_to_list m).*1, nextTick st).

(** [for k, v := range src { dst[k] = v }]. *)
Definition copyInto (src dst : gmap string (option Schema)) (st : genState)
  : gmap string (option Schema) * genState :=
  let '(ks, st') := rangeKeys src st in
  (foldl (λ m k, match src !! k with Some v => <[k:=v]> m | None => m end) dst ks, st').

Definition mergeInto (base add : Schema) (st : genState) : Schema * genState :=
  let '(props, st') := copyInto (propsOf add) (propsOf base) st in
  (withProperties base props, st').

(** Lines 141-149 of [emitMessage]: the allOf branches folded in
    declaration order, then the node's own properties. *)
Definition mergeAllOf (s : Schema) (st : genState) : result (Schema * genState) :=
  let merged := mkSchema "" "" "" [] (Some ∅) None None None None (Required s) false None "" in
  '(merged, st) ← forEach (λ '(merged, st) part,
                     match resolveRef (doc g) part with
                     | None => Panic
                     | Some add => Ok (mergeInto merged add st)
                     end) (elems (AllOf s)) (merged, st);
  let '(props, st) := copyInto (propsOf s) (propsOf merged) st in
  Ok (withProperties merged props, st).

(** Lines 153-159: the property names, sorted when [-sort] is set. *)
Definition propNames (merged : Schema) (st : genState) : list string * genState :=
  let '(ks, st') := rangeKeys (propsOf merged) st in
  (if sortFields g then sortStrings ks else ks, st').

(** The block the four field loops share: a synthesis request replaces
    the type by the flattened name and is queued unless that name is
    already visited. *)
Definition flatten (msgName : string) (pt : string) (nested : nestedReq)
    (queue : list pending) (st : genState) : string * list pending :=
  match nested with
  | Some (baseNestedName, schema) =>
      let flatName := normalizeMessage (msgName +:+ "_" +:+ baseNestedName) in
      (flatName, if isVisited flatName st then queue else queue ++ [(flatName, schema)])
  | None => (pt, queue)
  end.

Section Body.

(** The recursive calls of [emitMessage], at the fuel left. *)
Variable emitSchemaRec : string → option Schema → genState → result genState.
Variable fieldTypeRec : string → option Schema → result (string * nestedReq).

(** Lines 166-189: one iteration of the property loop. *)
Definition emitProperty (msgName : string) (merged : Schema)
    (bs : bodyState) (prop : string) : result bodyState :=
  let ps := index (propsOf merged) prop in
  '(ptype, nested) ← fieldTypeRec prop ps;
  let '(ptype, queue) := flatten msgName ptype nested (toEmit bs) (gen bs) in
  match ps with
  | None => Panic
  | Some p =>
      let opt := if Nullable p && useOptional g && isScalar ptype
                 then "optional " else "" in
      let st := write ("  " +:+ opt +:+ ptype +:+ " " +:+ normalizeField prop
                       +:+ " = " +:+ Strings.itoa (fieldNum bs) +:+ ";") (gen bs) in
      let st := if negb (String.eqb (Description p) "")
                then write (" // " +:+ oneline (Description p)) st else st in
      Ok (mkBody (S (fieldNum bs)) queue (write (String "010" "") st))
  end.

(** Lines 192-198: the entries field of a map-shaped object. *)
Definition emitMapEntries (s merged : Schema) (bs : bodyState) : result bodyState :=
  match AddlProps s with
  | Some addl =>
      if size (propsOf merged) =? 0 then
        '(valType, nested) ← fieldTypeRec "value" (Some addl);
        st ← match nested with
             | Some (n, schema) => emitSchemaRec n (Some schema) (gen bs)
             | None => Ok (gen bs)
             end;
        Ok (mkBody (fieldNum bs) (toEmit bs)
              (write ("  map<string," +:+ valType +:+ "> entries = 1;" +:+ String "010" "") st))
      else Ok bs
  | None => Ok bs
  end.

(** One iteration of a branch loop (lines 204-217 and 237-250);
    [idx] has been incremented already. *)
Definition emitBranch (msgName prefix : string)
    (acc : nat * bodyState) (branch : option Schema) : result (nat * bodyState) :=
  let idx := S (fst acc) in
  let bs := snd acc in
  let fname := prefix +:+ Strings.itoa idx in
  '(pt, nested) ← fieldTypeRec fname branch;
  let '(pt, queue) := flatten msgName pt nested (toEmit bs) (gen bs) in
  Ok (idx, mkBody (S (fieldNum bs)) queue
             (write ("    " +:+ pt +:+ " " +:+ fname +:+ " = "
                     +:+ Strings.itoa (fieldNum bs) +:+ ";" +:+ String "010" "") (gen bs))).

Definition writeBody (text : string) (bs : bodyState) : bodyState :=
  mkBody (fieldNum bs) (toEmit bs) (write text (gen bs)).

(** Lines 201-219. *)
Definition emitOneOf (msgName : string) (s : Schema) (bs : bodyState) : result bodyState :=
  if 0 <? length (elems (OneOf s)) then
    '(_, bs) ← forEach (emitBranch msgName "choice_") (elems (OneOf s))
                 (0, writeBody ("  oneof one_of {" +:+ String "010" "") bs);
    Ok (writeBody ("  }" +:+ String "010" "") bs)
  else Ok bs.

(** Lines 221-253. *)
Definition emitAnyOf (msgName : string) (s : Schema) (bs : bodyState) : result bodyState :=
  match elems (AnyOf s) with
  | [] => Ok bs
  | first :: _ =>
      if String.eqb (anyOfMode g) "repeat" then
        '(pt, nested) ← fieldTypeRec "anyof_value" first;
        let '(pt, queue) := flatten msgName pt nested (toEmit bs) (gen bs) in
        Ok (mkBody (S (fieldNum bs)) queue
              (write ("  repeated " +:+ pt +:+ " anyof_value = "
                      +:+ Strings.itoa (fieldNum bs)
                      +:+ "; // anyOf first schema repeated" +:+ String "010" "") (gen bs)))
      else
        '(_, bs) ← forEach (emitBranch msgName "alt_") (elems (AnyOf s))
                     (0, writeBody ("  oneof any_of {" +:+ String "010" "") bs);
        Ok (writeBody ("  }" +:+ String "010" "") bs)
  end.

(** Lines 138-253: everything [emitMessage] writes before the closing
    brace, with the queue of deferred schemas. *)
Definition emitBody (name : string) (s : Schema) (st : genState) : result bodyState :=
  let msgName := normalizeMessage name in
  let st := write ("message " +:+ msgName +:+ " {" +:+ String "010" "") st in
  '(merged, st) ← mergeAllOf s st;
  let '(names, st) := propNames merged st in
  bs ← forEach (emitProperty msgName merged) names (mkBody 1 [] st);
  bs ← emitMapEntries s merged bs;
  bs ← emitOneOf msgName s bs;
  emitAnyOf msgName s bs.

(** Lines 257-259: the deferred schemas, in queue order. *)
Definition drain (queue : list pending) (st : genState) : result genState :=
  forEach (λ st p, emitSchemaRec (fst p) (Some (snd p)) st) queue st.

Definition emitMessageWith (name : string) (s : Schema) (st : genState) : result genState :=
  bs ← emitBody name s st;
  drain (toEmit bs) (write ("}" +:+ String "010" (String "010" "")) (gen bs)).

End Body.

Definition emitEnum (name : string) (s : Schema) (st : genState) : genState :=
  let enumName := normalizeMessage name in
  let st := write ("enum " +:+ enumName +:+ " {" +:+ String "010" "") st in
  let st := write ("  " +:+ Strings.ToUpper enumName +:+ "_UNSPECIFIED = 0;"
                   +:+ String "010" "") st in
  let st := foldl (λ st iv,
              write ("  " +:+ Strings.ToUpper enumName +:+ "_" +:+ toEnumValue (snd iv)
                     +:+ " = " +:+ Strings.itoa (fst iv + 1) +:+ ";" +:+ String "010" "") st)
            st (imap pair (Enum s)) in
  write ("}" +:+ String "010" (String "010" "")) st.

(** The test of line 118. *)
Definition isMessageShaped (s : Schema) : bool :=
  String.eqb (Type_ s) "object" || bool_decide (Properties s ≠ None)
  || bool_decide (AllOf s ≠ None) || bool_decide (OneOf s ≠ None)
  || bool_decide (AnyOf s ≠ None) || bool_decide (AddlProps s ≠ None).

Fixpoint emitSchema (fuel : nat) (name : string) (s : option Schema) (st : genState)
  : result genState :=
  match fuel with
  | 0 => OutOfFuel
  | S fuel' =>
      if isVisited name st then Ok st
      else
        let st := markVisited name st in
        match resolveRef (doc g) s with
        | None => Panic
        | Some resolved =>
            if 0 <? length (Enum resolved) then Ok (emitEnum name resolved st)
            else if isMessageShaped resolved then
              emitMessageWith (emitSchema fuel') (fieldType fuel' (doc g)) name resolved st
            else
              let st := write ("// Primitive schema " +:+ name
                               +:+ " promoted to wrapper message" +:+ String "010" "") st in
              t ← scalarType (doc g) (Some resolved);
              Ok (write ("message " +:+ normalizeMessage name +:+ " { " +:+ t
                         +:+ " value = 1; }" +:+ String "010" (String "010" "")) st)
        end
  end.

Definition emitMessage (fuel : nat) : string → Schema → genState → result genState :=
  emitMessageWith (emitSchema fuel) (fieldType fuel (doc g)).

(** Lines 77-84 of [main]: the schema names, sorted when [-sort] is
    set. *)
Definition schemaNames (st : genState) : list string * genState :=
  let '(names, st') := rangeKeys (doc g) st in
  (if sortFields g then sortStrings names else names, st').

(** Lines 68-90 of [main]: the header and one [emitSchema] per registry
    entry; the result is the text of the builder. *)
Definition generate (fuel : nat) (pkg goPkg : string) : result string :=
  if size (doc g) =? 0 then Fatal
  else
    let st := write (header pkg goPkg) (mkState EmptyString ∅ 0) in
    let '(names, st) := schemaNames st in
    st ← forEach (λ st name, emitSchema fuel name (index (doc g) name) st) names st;
    Ok (out st).

End Generator.

(** ** Predicates and inputs used in the statements *)

(** One of the four bytes that [normalizeMessage] removes. *)
Definition isSeparator (c : ascii) : bool :=
  Ascii.eqb c "_" || Ascii.eqb c "-" || Ascii.eqb c "." || Ascii.eqb c " ".

Definition separatorFree (s : string) : bool :=
  Strings.forallb (λ c, negb (isSeparator c)) s.

(** The first byte, if any, is its own upper case. *)
Definition capitalised (s : string) : Prop :=
  match s with
  | EmptyString => True
  | String c _ => Strings.upperByte c = c
  end.

Definition slashFree (s : string) : bool :=
  Strings.forallb (λ c, negb (Ascii.eqb c "/")) s.

(** A node of the Reference variant: it names a target and carries none
    of the type, enumeration, array, object or composition keywords; the
    nullability flag and the description are free. *)
Definition isReferenceNode (s : Schema) : bool :=
  negb (String.eqb (Ref s) "") && String.eqb (Type_ s) "" && (length (Enum s) =? 0)
  && bool_decide (Properties s = None) && bool_decide (Items s = None)
  && bool_decide (OneOf s = None) && bool_decide (AllOf s = None)
  && bool_decide (AnyOf s = None) && bool_decide (AddlProps s = None).

(** The builder of [st'] is the builder of [st] with text appended. *)
Definition extends (st st' : genState) : Prop :=
  ∃ text, out st' = out st +:+ text.

(** A step of the body: the builder grows and the counter advances by
    [n]. *)
Definition bodyStep (n : nat) (bs bs' : bodyState) : Prop :=
  extends (gen bs) (gen bs') ∧ fieldNum bs' = n + fieldNum bs.

(** The fields [emitMessage] numbers from its counter when it handles
    the anyOf branches. *)
Definition anyOfFields (g : genContext) (s : Schema) : nat :=
  match elems (AnyOf s) with
  | [] => 0
  | _ :: _ => if String.eqb (anyOfMode g) "repeat" then 1 else length (elems (AnyOf s))
  end.

(** What Go guarantees of a [range] over a map: every key is visited
    once, in some order. *)
Definition validOrder (order : nat → list string → list string) : Prop :=
  ∀ t l, order t l ≡ₚ l.

(** The keys of a map, in the order [map_to_list] fixes. *)
Definition keys {V} (m : gmap string V) : list string := (map_to_list m).*1.

(** The properties of the allOf branches, folded in declaration order
    over [acc]: a later branch overwrites an earlier one. *)
Definition foldBranches (doc : Registry) (parts : list (option Schema))
    (acc : gmap string (option Schema)) : gmap string (option Schema) :=
  foldl (λ acc part, propsOf (default emptySchema (resolveRef doc part)) ∪ acc) acc parts.

(** ** Concrete inputs *)

(** Two iteration orders: the one [map_to_list] fixes, and its reverse. *)
Definition orderAsListed : nat → list string → list string := λ _ l, l.

Definition scalar (type format : string) : Schema :=
  mkSchema "" type format [] None None None None None [] false None "".

Definition object (props : gmap string (option Schema)) : Schema :=
  mkSchema "" "object" "" [] (Some props) None None None None [] false None "".

Definition arrayOf (items : Schema) : Schema :=
  mkSchema "" "array" "" [] None (Some items) None None None [] false None "".

(** [{"additionalProperties": value}] *)
Definition mapOf (value : Schema) : Schema :=
  mkSchema "" "" "" [] None None None None None [] false (Some value) "".

(** [{"additionalProperties": {"type": "string"},
      "oneOf": [{"type": "string"}, {"type": "integer"}]}] *)
Definition mapWithOneOf : Schema :=
  mkSchema "" "" "" [] None None
           (Some [Some (scalar "string" ""); Some (scalar "integer" "")])
           None None [] false (Some (scalar "string" "")) "".

(** [{"type": "object", "properties":
      {"tags": {"type": "array", "items":
         {"type": "object", "properties": {"label": {"type": "string"}}}}}}] *)
Definition petWithTags : Schema :=
  object {[ "tags" := Some (arrayOf (object {[ "label" := Some (scalar "string" "") ]})) ]}.

(** A registry of two map-shaped schemas whose values are objects of
    different shapes. *)
Definition twoMaps : Registry :=
  {[ "Colors" := Some (mapOf (object {[ "hex" := Some (scalar "string" "") ]}));
     "Sizes" := Some (mapOf (object {[ "cm" := Some (scalar "integer" "") ]})) ]}.

(** [{"properties": {"status": {"type": "string"}},
      "allOf": [{"properties": {"status": {"type": "integer"},
                                "id": {"type": "integer"}}},
                {"properties": {"id": {"type": "string"}}}],
      "required": ["status"]}] *)
Definition account : Schema :=
  mkSchema "" "object" "" []
           (Some {[ "status" := Some (scalar "string" "") ]}) None None
           (Some [Some (object {[ "status" := Some (scalar "integer" "");
                                  "id" := Some (scalar "integer" "") ]});
                  Some (object {[ "id" := Some (scalar "string" "") ]})])
           None ["status"] false None "".

(** A chain of references A -> B -> C. *)
Definition chain : Registry :=
  {[ "A" := Some (Reference "#/components/schemas/B");
     "B" := Some (Reference "#/components/schemas/C");
     "C" := Some (scalar "integer" "int32") ]}.

(** Two scalar schemas. *)
Definition twoScalars : Registry :=
  {[ "Alpha" := Some (scalar "string" ""); "Beta" := Some (scalar "boolean" "") ]}.

Definition context (doc : Registry) (sorted : bool) : genContext :=
  mkContext doc true "oneof" sorted.

(** The state [main] starts from, before the header is written. *)
Definition start : genState := mkState EmptyString ∅ 0.

(** The text a call has in the builder when it returns. *)
Definition textOf (r : result genState) : result string := st ← r; Ok (out st).

(** ** Further predicates used in the statements *)

(** Every byte of the string is below 128. *)
Definition asciiText (s : string) : bool :=
  Strings.forallb (λ c, nat_of_ascii c <? 128) s.

Definition firstByte (s : string) : option ascii :=
  match s with
  | EmptyString => None
  | String c _ => Some c
  end.

Fixpoint lastByte (s : string) : option ascii :=
  match s with
  | EmptyString => None
  | String c EmptyString => Some c
  | String _ s' => lastByte s'
  end.

(** A byte of a normalized field name: a lower-case letter, a digit or
    the underscore. *)
Definition isFieldByte (c : ascii) : bool :=
  Strings.isLower c || Strings.isDigit c || Ascii.eqb c "_".

(** A byte of an enum member name: no lower-case letter, hyphen or
    space. *)
Definition isEnumByte (c : ascii) : bool :=
  negb (Strings.isLower c) && negb (Ascii.eqb c "-") && negb (Ascii.eqb c " ").

Definition isLineFeed (c : ascii) : bool := Ascii.eqb c "010".

(** The state a call returned, for a call that did return. *)
Definition stateOf (r : result genState) : genState :=
  match r with
  | Ok st => st
  | _ => mkState EmptyString ∅ 0
  end.


(** [{"type": "string", "enum": ["in-progress", "done"]}] *)
Definition statusEnum : Schema :=
  mkSchema "" "string" "" ["in-progress"; "done"] None None None None None [] false None "".


(** Neither result is the fatal exit. *)
Definition notFatal {A} (r r' : result A) : Prop := r ≠ Fatal ∧ r' ≠ Fatal.

(** The nesting depth of a schema along [items] and
    [additionalProperties], the two fields the type mapper descends
    into. *)
Fixpoint spineDepth (s : Schema) : nat :=
  S (Nat.max (match Items s with Some i => spineDepth i | None => 0 end)
             (match AddlProps s with Some a => spineDepth a | None => 0 end)).

(** No node along [items] and [additionalProperties] carries a [$ref]. *)
Fixpoint refFreeSpine (s : Schema) : bool :=
  String.eqb (Ref s) ""
  && match Items s with Some i => refFreeSpine i | None => true end
  && match AddlProps s with Some a => refFreeSpine a | None => true end.

(** A type the mapper returns without a synthesis request: a scalar
    under any number of [repeated] and [map] wrappers. *)
Inductive simpleType : string → Prop :=
  | simple_scalar t : isScalar t = true → simpleType t
  | simple_repeated t : simpleType t → simpleType ("repeated " +:+ t)
  | simple_map t : simpleType t → simpleType ("map<string," +:+ t +:+ ">").

(** The schema with its anyOf branches replaced. *)
Definition withAnyOf (s : Schema) (branches : option (list (option Schema))) : Schema :=
  mkSchema (Ref s) (Type_ s) (Format s) (Enum s) (Properties s) (Items s)
           (OneOf s) (AllOf s) branches (Required s) (Nullable s) (AddlProps s)
           (Description s).

(** [{"type": "array", "items": {"type": "array", "items":
      {"type": "object", "additionalProperties": {"type": "number"}}}}] *)
Definition matrixOfMaps : Schema :=
  arrayOf (arrayOf (mkSchema "" "object" "" [] None None None None None [] false
                             (Some (scalar "number" "")) "")).

(** A registry with a null entry, and a reference to it. *)
Definition withNull : Registry :=
  {[ "Gone" := None; "Holder" := Some (object {[ "g" := Some (Reference "#/components/schemas/Gone") ]}) ]}.

(** A queued name: the enclosing message's name followed by a local name
    that is its own normal form. *)
Definition flatNameOf (msgName : string) (p : pending) : Prop :=
  ∃ base, p.1 = msgName +:+ base ∧ normalizeMessage base = base.

(** [{"type": "object", "properties": {k: {"$ref": r}}}] *)
Definition nodeWith (k r : string) : Schema :=
  object {[ k := Some (Reference r) ]}.

(** [j] copies of [b]. *)
Fixpoint copies (b : string) (j : nat) : string :=
  match j with
  | 0 => EmptyString
  | S j' => b +:+ copies b j'
  end.

(** A registry whose only schema has a property that refers back to it. *)
Definition treeRegistry : Registry :=
  {[ "Node" := Some (nodeWith "next" "#/components/schemas/Node") ]}.

(** * Proofs *)

(** ** Byte strings *)

Lemma append_cons (c : ascii) (s t : string) : String c s +:+ t = String c (s +:+ t).
Proof. reflexivity. Qed.

Lemma append_nil_l (s : string) : EmptyString +:+ s = s.
Proof. reflexivity. Qed.

Lemma append_nil_r (s : string) : s +:+ EmptyString = s.
Proof. induction s as [|c s IH]; [done|]. by rewrite append_cons, IH. Qed.

Lemma append_assoc (a b c : string) : (a +:+ b) +:+ c = a +:+ (b +:+ c).
Proof. induction a as [|x a IH]; [done|]. by rewrite !append_cons, IH. Qed.

Lemma forallb_append f (a b : string) :
  Strings.forallb f (a +:+ b) = Strings.forallb f a && Strings.forallb f b.
Proof.
  induction a as [|x a IH]; [done|]. rewrite append_cons. cbn. by rewrite IH, andb_assoc.
Qed.

Lemma forallb_impl (f h : ascii → bool) (s : string) :
  (∀ c, f c = true → h c = true) → Strings.forallb f s = true → Strings.forallb h s = true.
Proof.
  intros Hfh. induction s as [|c s IH]; [done|]. cbn.
  intros [Hc Hs]%andb_true_iff. rewrite (Hfh _ Hc). by rewrite IH.
Qed.

Lemma map_id_on (f : ascii → ascii) (s : string) :
  Strings.forallb (λ c, Ascii.eqb (f c) c) s = true → Strings.map f s = s.
Proof.
  induction s as [|c s IH]; [done|]. cbn.
  intros [Hc Hs]%andb_true_iff. apply Ascii.eqb_eq in Hc. by rewrite Hc, IH.
Qed.

Lemma upperByte_idem (c : ascii) : Strings.upperByte (Strings.upperByte c) = Strings.upperByte c.
Proof. by destruct c as [[] [] [] [] [] [] [] []]. Qed.

Lemma upperByte_not_lower (c : ascii) : Strings.isLower c = false → Strings.upperByte c = c.
Proof. unfold Strings.upperByte. by intros ->. Qed.

Lemma isSeparator_upperByte (c : ascii) : isSeparator (Strings.upperByte c) = isSeparator c.
Proof. by destruct c as [[] [] [] [] [] [] [] []]. Qed.

(** ** [strings.Split] *)

Lemma Split_nonempty (s : string) (sep : ascii) : Strings.Split s sep ≠ [].
Proof.
  destruct s as [|c s]; [done|]. cbn.
  destruct (Ascii.eqb c sep); [done|]. by destruct (Strings.Split s sep).
Qed.

Lemma Split_no_sep (s : string) (sep : ascii) :
  Strings.forallb (λ c, negb (Ascii.eqb c sep)) s = true → Strings.Split s sep = [s].
Proof.
  induction s as [|c s IH]; [done|]. cbn.
  intros [Hc Hs]%andb_true_iff. apply negb_true_iff in Hc. rewrite Hc, (IH Hs). done.
Qed.

Lemma Split_app_sep (p n : string) (sep : ascii) :
  Strings.Split (p +:+ String sep n) sep = Strings.Split p sep ++ Strings.Split n sep.
Proof.
  induction p as [|c p IH].
  - rewrite append_nil_l. cbn. by rewrite Ascii.eqb_refl.
  - rewrite append_cons. cbn. destruct (Ascii.eqb c sep); [by rewrite IH|].
    rewrite IH. destruct (Strings.Split p sep) as [|q qs] eqn:E; [by apply Split_nonempty in E|].
    done.
Qed.

(** Every part of a split inherits what holds of all bytes, and has no
    separator byte. *)
Lemma Split_parts (f : ascii → bool) (s : string) (sep : ascii) :
  Strings.forallb f s = true →
  Forall (λ p, Strings.forallb (λ c, f c && negb (Ascii.eqb c sep)) p = true)
         (Strings.Split s sep).
Proof.
  induction s as [|c s IH]; [by repeat constructor|].
  cbn. intros [Hc Hs]%andb_true_iff. specialize (IH Hs).
  destruct (Ascii.eqb c sep) eqn:E; [by constructor|].
  destruct (Strings.Split s sep) as [|q qs]; [repeat constructor; cbn; by rewrite Hc, E|].
  inversion IH; subst. constructor; [|done]. cbn. by rewrite Hc, E.
Qed.

(** ** Naming normalizer *)

Lemma nonAlnumReplace_dashFree (s : string) :
  Strings.forallb (λ c, negb (Ascii.eqb c "-" || Ascii.eqb c "." || Ascii.eqb c " "))
                  (nonAlnumReplace s) = true.
Proof.
  unfold nonAlnumReplace. induction s as [|c s IH]; [done|]. cbn.
  rewrite IH, andb_true_r. by destruct c as [[] [] [] [] [] [] [] []].
Qed.

Lemma nonAlnumReplace_separatorFree (s : string) :
  separatorFree s = true → nonAlnumReplace s = s.
Proof.
  intros Hs. apply map_id_on. revert Hs. apply forallb_impl.
  intros c. by destruct c as [[] [] [] [] [] [] [] []].
Qed.

Lemma Split_separatorFree (s : string) :
  separatorFree s = true → Strings.Split s "_" = [s].
Proof.
  intros Hs. apply Split_no_sep. revert Hs. apply forallb_impl.
  intros c. by destruct c as [[] [] [] [] [] [] [] []].
Qed.

Lemma ToUpper_separatorFree (s : string) :
  separatorFree (Strings.ToUpper s) = separatorFree s.
Proof.
  unfold separatorFree, Strings.ToUpper. induction s as [|c s IH]; [done|]. cbn.
  by rewrite isSeparator_upperByte, IH.
Qed.

Lemma upperCamelPart_separatorFree (p : string) :
  separatorFree p = true → separatorFree (upperCamelPart p) = true.
Proof.
  intros Hp. unfold upperCamelPart. destruct p as [|c rest]; [done|].
  destruct (isAllUpper _ && _); [done|].
  destruct (String.length _ =? 1); [by rewrite ToUpper_separatorFree|].
  unfold separatorFree in *. rewrite forallb_append. cbn in Hp |- *.
  rewrite isSeparator_upperByte. apply andb_true_iff in Hp as [-> ->]. done.
Qed.

Lemma Join_separatorFree (ps : list string) :
  Forall (λ p, separatorFree p = true) ps → separatorFree (Strings.Join ps) = true.
Proof.
  induction 1 as [|p ps Hp _ IH]; [done|]. cbn.
  unfold separatorFree in *. by rewrite forallb_append, Hp, IH.
Qed.

Lemma upperCamelPart_capitalised (p : string) : capitalised (upperCamelPart p).
Proof.
  unfold upperCamelPart. destruct p as [|c rest]; [done|].
  destruct (isAllUpper _ && _) eqn:E.
  - apply andb_true_iff in E as [E _]. cbn in E. apply andb_true_iff in E as [E _].
    cbn. apply upperByte_not_lower. by apply negb_true_iff.
  - destruct (String.length _ =? 1); cbn; apply upperByte_idem.
Qed.

Lemma Join_capitalised (ps : list string) :
  Forall capitalised ps → capitalised (Strings.Join ps).
Proof.
  induction 1 as [|p ps Hp _ IH]; [done|]. cbn. by destruct p.
Qed.

Lemma upperCamelPart_fixed (r : string) : capitalised r → upperCamelPart r = r.
Proof.
  unfold upperCamelPart. destruct r as [|c rest]; [done|]. cbn. intros Hc.
  destruct (_ && _); [done|].
  destruct rest as [|d rest]; cbn; by rewrite Hc.
Qed.

Lemma upperCamel_fixed (r : string) :
  separatorFree r = true → capitalised r → upperCamel r = r.
Proof.
  intros Hsep Hcap. unfold upperCamel. destruct (String.eqb_spec r "") as [->|_]; [done|].
  rewrite (Split_separatorFree _ Hsep). cbn.
  by rewrite append_nil_r, upperCamelPart_fixed.
Qed.

Lemma normalizeMessage_separatorFree (s : string) :
  separatorFree (normalizeMessage s) = true.
Proof.
  unfold normalizeMessage, upperCamel. destruct (String.eqb _ ""); [done|].
  apply Join_separatorFree, Forall_fmap.
  pose proof (Split_parts _ _ "_" (nonAlnumReplace_dashFree s)) as Hparts.
  eapply Forall_impl; [exact Hparts|].
  intros p Hp. apply upperCamelPart_separatorFree. revert Hp. apply forallb_impl.
  intros c. by destruct c as [[] [] [] [] [] [] [] []].
Qed.

Lemma normalizeMessage_capitalised (s : string) : capitalised (normalizeMessage s).
Proof.
  unfold normalizeMessage, upperCamel. destruct (String.eqb _ ""); [done|].
  apply Join_capitalised, Forall_fmap, Forall_forall. intros p _.
  apply upperCamelPart_capitalised.
Qed.

(** A normalized name is a fixed point of the normalizer. *)
Lemma normalizeMessage_fixed (r : string) :
  separatorFree r = true → capitalised r → normalizeMessage r = r.
Proof.
  intros Hsep Hcap. unfold normalizeMessage.
  rewrite (nonAlnumReplace_separatorFree _ Hsep). by apply upperCamel_fixed.
Qed.

(** C9. The type-name normalizer is idempotent on ASCII identifiers:
    normalizing an already normalized name changes nothing. *)
Theorem normalizeMessage_idempotent (s : string) :
  asciiIdentifier s = true →
  normalizeMessage (normalizeMessage s) = normalizeMessage s.
Proof.
  intros _. apply normalizeMessage_fixed;
    [apply normalizeMessage_separatorFree | apply normalizeMessage_capitalised].
Qed.

Lemma normalizeMessage_idempotent_witness :
  asciiIdentifier "user_profile_ID" = true
  ∧ normalizeMessage "user_profile_ID" = "UserProfileID"
  ∧ normalizeMessage (normalizeMessage "user_profile_ID") = normalizeMessage "user_profile_ID".
Proof.
  split; [reflexivity|]. split; [reflexivity|].
  apply (normalizeMessage_idempotent "user_profile_ID"). reflexivity.
Defined.

(** ** Reference resolver *)

Lemma lastSegment_last (ref : string) : Some (lastSegment ref) = last (Strings.Split ref "/").
Proof.
  unfold lastSegment. rewrite last_lookup, Nat.sub_1_r.
  destruct (Strings.Split ref "/" !! pred (length (Strings.Split ref "/"))) eqn:E; [done|].
  apply lookup_ge_None in E. pose proof (Split_nonempty ref "/") as Hne.
  destruct (Strings.Split ref "/"); [done|]. cbn in E. lia.
Qed.

Lemma lastSegment_bare (name : string) : slashFree name = true → lastSegment name = name.
Proof.
  intros Hn. apply (inj Some). rewrite lastSegment_last, (Split_no_sep _ _ Hn). done.
Qed.

Lemma lastSegment_path (prefix name : string) :
  slashFree name = true → lastSegment (prefix +:+ String "/" name) = name.
Proof.
  intros Hn. apply (inj Some).
  rewrite lastSegment_last, Split_app_sep, (Split_no_sep _ _ Hn). by rewrite last_snoc.
Qed.

Lemma resolveRef_unfold (doc : Registry) (s : Schema) :
  resolveRef doc (Some s) =
    if String.eqb (Ref s) EmptyString then Some s
    else match doc !! lastSegment (Ref s) with
         | Some tgt => tgt
         | None => Some s
         end.
Proof.
  unfold resolveRef. destruct (String.eqb (Ref s) ""); [done|].
  pose proof (Split_nonempty (Ref s) "/") as Hne.
  destruct (Strings.Split (Ref s) "/"); done.
Qed.

(** C6. Resolution is single-hop: a node without [$ref] is returned
    unchanged; a Reference whose target name is registered yields that
    registry entry as it stands; so in a chain A -> B -> C resolving A
    yields the Reference node B -> C, whatever C's node is. *)
Theorem resolveRef_single_hop (doc : Registry) :
  (∀ s, Ref s = EmptyString → resolveRef doc (Some s) = Some s)
  ∧ (∀ s tgt, Ref s ≠ EmptyString → doc !! lastSegment (Ref s) = Some tgt →
       resolveRef doc (Some s) = tgt)
  ∧ (∀ toB toC nodeC,
       toB ≠ EmptyString → toC ≠ EmptyString →
       doc !! lastSegment toB = Some (Some (Reference toC)) →
       doc !! lastSegment toC = Some (Some nodeC) →
       Ref nodeC = EmptyString →
       resolveRef doc (Some (Reference toB)) = Some (Reference toC)
       ∧ resolveRef doc (Some (Reference toB)) ≠ Some nodeC).
Proof.
  split; [|split].
  - intros s Hs. rewrite resolveRef_unfold, Hs. done.
  - intros s tgt Hs Htgt. rewrite resolveRef_unfold, Htgt.
    by destruct (String.eqb_spec (Ref s) "").
  - intros toB toC nodeC HB HC' HdocB _ HC.
    assert (resolveRef doc (Some (Reference toB)) = Some (Reference toC)) as ->.
    { rewrite resolveRef_unfold. cbn. rewrite HdocB. by destruct (String.eqb_spec toB ""). }
    split; [done|]. intros [= E]. rewrite <- E in HC. done.
Qed.

Lemma resolveRef_single_hop_witness :
  resolveRef chain (Some (Reference "#/components/schemas/B"))
  = Some (Reference "#/components/schemas/C")
  ∧ resolveRef chain (Some (Reference "#/components/schemas/B"))
    ≠ Some (scalar "integer" "int32").
Proof.
  apply (proj2 (proj2 (resolveRef_single_hop chain))
           "#/components/schemas/B" "#/components/schemas/C" (scalar "integer" "int32")).
  - discriminate.
  - discriminate.
  - vm_compute. reflexivity.
  - vm_compute. reflexivity.
  - reflexivity.
Defined.

(** C10. The registry key of a [$ref] is its last [/]-separated segment
    and nothing else: a ref [prefix/Name] or a bare [Name] resolves to the
    entry registered under [Name], whatever the prefix, and a ref is left
    unresolved exactly when that segment is not registered. *)
Theorem resolveRef_by_last_segment (doc : Registry) (s : Schema) :
  Ref s ≠ EmptyString →
  (∀ prefix name tgt, slashFree name = true → doc !! name = Some tgt →
     Ref s = prefix +:+ String "/" name ∨ Ref s = name →
     resolveRef doc (Some s) = tgt)
  ∧ (doc !! lastSegment (Ref s) = None → resolveRef doc (Some s) = Some s)
  ∧ (∀ tgt, doc !! lastSegment (Ref s) = Some tgt → resolveRef doc (Some s) = tgt).
Proof.
  intros Hs. rewrite resolveRef_unfold.
  destruct (String.eqb_spec (Ref s) "") as [|_]; [done|].
  split; [|split].
  - intros prefix name tgt Hname Htgt [-> | ->].
    + by rewrite (lastSegment_path _ _ Hname), Htgt.
    + by rewrite (lastSegment_bare _ Hname), Htgt.
  - by intros ->.
  - by intros tgt ->.
Qed.

Lemma resolveRef_by_last_segment_witness :
  resolveRef chain (Some (Reference "https://example.com/defs.yaml#/definitions/C"))
  = Some (scalar "integer" "int32").
Proof.
  apply (proj1 (resolveRef_by_last_segment chain
                  (Reference "https://example.com/defs.yaml#/definitions/C")
                  ltac:(discriminate))
           "https://example.com/defs.yaml#/definitions" "C" (Some (scalar "integer" "int32"))).
  - reflexivity.
  - vm_compute. reflexivity.
  - left. reflexivity.
Defined.

(** ** Type mapper *)

(** C8. A dangling Reference is not an error: resolution hands the
    Reference node back unchanged, and both type mappers answer with the
    default scalar [string] and no synthesis request. *)
Theorem dangling_reference_maps_to_string
    (doc : Registry) (s : Schema) (name : string) (fuel : nat) :
  isReferenceNode s = true →
  doc !! lastSegment (Ref s) = None →
  resolveRef doc (Some s) = Some s
  ∧ fieldType (S fuel) doc name (Some s) = Ok ("string", None)
  ∧ scalarType doc (Some s) = Ok "string".
Proof.
  intros Href Hdoc.
  assert (resolveRef doc (Some s) = Some s) as Hres.
  { rewrite resolveRef_unfold, Hdoc. by destruct (String.eqb (Ref s) ""). }
  unfold isReferenceNode in Href. repeat apply andb_true_iff in Href as [Href ?].
  repeat match goal with H : bool_decide _ = true |- _ => apply bool_decide_eq_true in H end.
  match goal with H : String.eqb (Type_ s) _ = true |- _ => apply String.eqb_eq in H as Htype end.
  match goal with H : (length _ =? 0) = true |- _ => apply Nat.eqb_eq in H as Henum end.
  split; [done|]. split.
  - cbn [fieldType]. rewrite Hres, Henum, Htype.
    match goal with H : OneOf s = None |- _ => rewrite H end.
    match goal with H : AllOf s = None |- _ => rewrite H end.
    match goal with H : AnyOf s = None |- _ => rewrite H end.
    reflexivity.
  - unfold scalarType. rewrite Hres, Htype. reflexivity.
Qed.

Lemma dangling_reference_maps_to_string_witness :
  resolveRef chain (Some (Reference "#/components/schemas/Missing"))
  = Some (Reference "#/components/schemas/Missing")
  ∧ fieldType 1 chain "owner" (Some (Reference "#/components/schemas/Missing"))
    = Ok ("string", None)
  ∧ scalarType chain (Some (Reference "#/components/schemas/Missing")) = Ok "string".
Proof.
  apply (dangling_reference_maps_to_string chain
           (Reference "#/components/schemas/Missing") "owner" 0).
  - reflexivity.
  - vm_compute. reflexivity.
Defined.

(** ** Map iteration and the allOf merger *)

Lemma elem_of_keys {V} (m : gmap string V) (k : string) : k ∈ keys m ↔ is_Some (m !! k).
Proof.
  unfold keys. rewrite list_elem_of_fmap. split.
  - intros [[k' v] [-> Hin]]. apply elem_of_map_to_list in Hin. by exists v.
  - intros [v Hv]. exists (k, v). split; [done|]. by apply elem_of_map_to_list.
Qed.

Lemma copy_loop_lookup (src : gmap string (option Schema)) (ks : list string)
    (dst : gmap string (option Schema)) (k : string) :
  foldl (λ m k, match src !! k with Some v => <[k:=v]> m | None => m end) dst ks !! k
  = if decide (k ∈ ks) then union_with (λ x _, Some x) (src !! k) (dst !! k) else dst !! k.
Proof.
  revert dst. induction ks as [|x ks IH]; intros dst; [done|].
  cbn [foldl]. rewrite IH.
  destruct (decide (k ∈ ks)) as [Hin|Hnin].
  - rewrite decide_True by (by right).
    destruct (src !! x) as [v|] eqn:Ex; [|done].
    destruct (decide (x = k)) as [->|Hne].
    + rewrite Ex, lookup_insert_eq. by destruct (dst !! k).
    + by rewrite lookup_insert_ne.
  - destruct (decide (x = k)) as [->|Hne].
    + rewrite decide_True by (by left).
      destruct (src !! k) as [v|] eqn:Ex; [|by destruct (dst !! k)].
      rewrite lookup_insert_eq. by destruct (dst !! k).
    + rewrite decide_False by (intros [?|?]%elem_of_cons; congruence).
      destruct (src !! x); [|done]. by rewrite lookup_insert_ne.
Qed.

(** Copying a map into another entry by entry gives their union, the
    copied entries winning, in whatever order [range] walks the source. *)
Lemma copyInto_union order (src dst : gmap string (option Schema)) (st : genState) :
  validOrder order → copyInto order src dst st = (src ∪ dst, nextTick st).
Proof.
  intros Hord. unfold copyInto, rangeKeys. f_equal.
  apply map_eq. intros k. rewrite copy_loop_lookup, lookup_union.
  case_decide as Hin; [done|].
  rewrite (Hord (tick st) _) in Hin. fold (keys src) in Hin.
  rewrite elem_of_keys in Hin. apply eq_None_not_Some in Hin. rewrite Hin.
  by destruct (dst !! k).
Qed.

Lemma propsOf_withProperties (s : Schema) props : propsOf (withProperties s props) = props.
Proof. done. Qed.

Lemma foldBranches_cons (doc : Registry) part parts acc :
  foldBranches doc (part :: parts) acc
  = foldBranches doc parts (propsOf (default emptySchema (resolveRef doc part)) ∪ acc).
Proof. done. Qed.


Lemma mergeInto_union order (base add : Schema) (st : genState) :
  validOrder order →
  mergeInto order base add st = (withProperties base (propsOf add ∪ propsOf base), nextTick st).
Proof. intros Hord. unfold mergeInto. by rewrite (copyInto_union _ _ _ _ Hord). Qed.

Lemma bind_Ok {A B} (a : A) (k : A → result B) : Ok a ≫= k = k a.
Proof. done. Qed.

Lemma allOf_loop order (doc : Registry) (parts : list (option Schema)) (m : Schema) st :
  validOrder order →
  Forall (λ part, resolveRef doc part ≠ None) parts →
  ∃ m' st',
    forEach (λ '(merged, st) part,
              match resolveRef doc part with
              | None => Panic
              | Some add => Ok (mergeInto order merged add st)
              end) parts (m, st) = Ok (m', st')
    ∧ Required m' = Required m
    ∧ propsOf m' = foldBranches doc parts (propsOf m)
    ∧ out st' = out st ∧ visited st' = visited st.
Proof.
  intros Hord Hparts. revert m st.
  induction Hparts as [|part parts Hpart _ IH]; intros m st.
  - by exists m, st.
  - cbn [forEach]. cbv beta iota.
    destruct (resolveRef doc part) as [add|] eqn:E; [|done].
    rewrite bind_Ok, (mergeInto_union _ _ _ _ Hord).
    destruct (IH (withProperties m (propsOf add ∪ propsOf m)) (nextTick st))
      as (m' & st' & -> & Hreq & Hprops & Hout & Hvis).
    exists m', st'. split; [done|]. rewrite Hreq, Hprops, Hout, Hvis.
    by rewrite propsOf_withProperties, foldBranches_cons, E.
Qed.

Lemma mergeAllOf_spec order (g : genContext) (s : Schema) (st : genState) :
  validOrder order →
  Forall (λ part, resolveRef (doc g) part ≠ None) (elems (AllOf s)) →
  ∃ merged st',
    mergeAllOf order g s st = Ok (merged, st')
    ∧ Required merged = Required s
    ∧ propsOf merged = propsOf s ∪ foldBranches (doc g) (elems (AllOf s)) ∅
    ∧ out st' = out st ∧ visited st' = visited st.
Proof.
  intros Hord Hparts. unfold mergeAllOf.
  destruct (allOf_loop order (doc g) _
              (mkSchema "" "" "" [] (Some ∅) None None None None (Required s) false None "")
              st Hord Hparts)
    as (m' & st' & -> & Hreq & Hprops & Hout & Hvis).
  rewrite bind_Ok. cbv beta iota. rewrite (copyInto_union _ _ _ _ Hord).
  eexists _, _. split; [done|]. cbn. by rewrite Hprops.
Qed.




(** ** Independence of the map iteration order when sorting is on *)







Section OrderIrrelevant.

Variables o1 o2 : nat → list string → list string.
Variable g : genContext.
Hypothesis Ho1 : validOrder o1.
Hypothesis Ho2 : validOrder o2.
Hypothesis Hsort : sortFields g = true.

Section Body.

Variables rec1 rec2 : string → option Schema → genState → result genState.
Variable ft : string → option Schema → result (string * nestedReq).
Hypothesis Hrec : ∀ n s st, rec1 n s st = rec2 n s st.





End Body.



End OrderIrrelevant.

(** ** The builder is append-only, and the field counter *)

Lemma extends_refl (st : genState) : extends st st.
Proof. exists EmptyString. by rewrite append_nil_r. Qed.

Lemma extends_trans (st1 st2 st3 : genState) :
  extends st1 st2 → extends st2 st3 → extends st1 st3.
Proof.
  intros [t1 H1] [t2 H2]. exists (t1 +:+ t2). by rewrite H2, H1, append_assoc.
Qed.

Lemma extends_write (text : string) (st : genState) : extends st (write text st).
Proof. by exists text. Qed.

Lemma extends_write_r (text : string) (st st' : genState) :
  extends st st' → extends st (write text st').
Proof. intros H. eapply extends_trans; [exact H|apply extends_write]. Qed.

Lemma extends_nextTick (st : genState) : extends st (nextTick st).
Proof. exists EmptyString. cbn. by rewrite append_nil_r. Qed.

Lemma extends_markVisited (name : string) (st : genState) : extends st (markVisited name st).
Proof. exists EmptyString. cbn. by rewrite append_nil_r. Qed.

Lemma forEach_invariant {A S} (R : S → S → Prop) (body : S → A → result S)
    (l : list A) (acc acc' : S) :
  (∀ a, R a a) → (∀ a b c, R a b → R b c → R a c) →
  (∀ a x a', body a x = Ok a' → R a a') →
  forEach body l acc = Ok acc' → R acc acc'.
Proof.
  intros Hrefl Htrans Hbody. revert acc.
  induction l as [|x l IH]; intros acc; cbn [forEach].
  - intros [= <-]. apply Hrefl.
  - destruct (body acc x) as [a| | |] eqn:E; [|done..].
    rewrite bind_Ok. intros Hrest. eapply Htrans; [by eapply Hbody|by apply IH].
Qed.

Lemma bodyStep_trans n m bs1 bs2 bs3 :
  bodyStep n bs1 bs2 → bodyStep m bs2 bs3 → bodyStep (n + m) bs1 bs3.
Proof.
  intros [E1 N1] [E2 N2]. split; [by eapply extends_trans|]. rewrite N2, N1. lia.
Qed.

Lemma flatten_cases (msgName pt : string) (nested : nestedReq) queue st :
  ∃ pt' queue', flatten msgName pt nested queue st = (pt', queue').
Proof. destruct (flatten msgName pt nested queue st) as [pt' queue']. by eexists _, _. Qed.

Lemma mergeAllOf_extends order (g : genContext) (s merged : Schema) (st st' : genState) :
  mergeAllOf order g s st = Ok (merged, st') → extends st st'.
Proof.
  unfold mergeAllOf.
  destruct (forEach _ _ _) as [[m st1]| | |] eqn:E; [|done..].
  rewrite bind_Ok. cbv beta iota. unfold copyInto, rangeKeys. intros [= _ <-].
  apply (forEach_invariant (λ a b, extends a.2 b.2)) in E; cbn in E.
  - eapply extends_trans; [exact E|apply extends_nextTick].
  - intros a. apply extends_refl.
  - intros a b c. apply extends_trans.
  - intros [a sa] x [a' sa']. destruct (resolveRef (doc g) x); [|done].
    unfold mergeInto, copyInto, rangeKeys. intros [= _ <-]. apply extends_nextTick.
Qed.

Section Emitter.

Variable order : nat → list string → list string.
Variable g : genContext.

Section Body.

Variable rec : string → option Schema → genState → result genState.
Variable ft : string → option Schema → result (string * nestedReq).
Hypothesis Hrec : ∀ n s st st', rec n s st = Ok st' → extends st st'.

Lemma emitProperty_step msgName merged bs prop bs' :
  emitProperty g ft msgName merged bs prop = Ok bs' → bodyStep 1 bs bs'.
Proof.
  unfold emitProperty.
  destruct (ft prop _) as [[pt nested]| | |]; [|done..]. rewrite bind_Ok. cbv beta iota.
  destruct (flatten_cases msgName pt nested (toEmit bs) (gen bs)) as (pt' & q & ->).
  destruct (index _ prop) as [p|]; [|done]. intros [= <-]. split; [|done]. cbn [gen].
  apply extends_write_r. destruct (negb _); repeat apply extends_write_r; apply extends_refl.
Qed.

Lemma emitProperties_step msgName merged names bs bs' :
  forEach (emitProperty g ft msgName merged) names bs = Ok bs' →
  bodyStep (length names) bs bs'.
Proof.
  revert bs. induction names as [|x names IH]; intros bs; cbn [forEach].
  - intros [= <-]. split; [apply extends_refl|done].
  - destruct (emitProperty _ _ _ _ _ _) as [b| | |] eqn:E; [|done..].
    rewrite bind_Ok. intros Hrest. apply emitProperty_step in E. apply IH in Hrest.
    apply (bodyStep_trans 1 (length names) _ _ _ E Hrest).
Qed.

Lemma emitMapEntries_step s merged bs bs' :
  emitMapEntries rec ft s merged bs = Ok bs' → bodyStep 0 bs bs'.
Proof.
  unfold emitMapEntries.
  destruct (AddlProps s) as [addl|]; [|intros [= <-]; split; [apply extends_refl|done]].
  destruct (size _ =? 0); [|intros [= <-]; split; [apply extends_refl|done]].
  destruct (ft "value" _) as [[vt nested]| | |]; [|done..]. rewrite bind_Ok. cbv beta iota.
  destruct nested as [[n schema]|].
  - destruct (rec n (Some schema) (gen bs)) as [stv| | |] eqn:E; [|done..].
    rewrite bind_Ok. intros [= <-]. split; [|done]. cbn [gen].
    apply extends_write_r. by eapply Hrec.
  - rewrite bind_Ok. intros [= <-]. split; [|done]. apply extends_write.
Qed.

Lemma emitBranch_step msgName prefix acc branch acc' :
  emitBranch ft msgName prefix acc branch = Ok acc' → bodyStep 1 acc.2 acc'.2.
Proof.
  unfold emitBranch.
  destruct (ft _ branch) as [[pt nested]| | |]; [|done..]. rewrite bind_Ok. cbv beta iota.
  destruct (flatten_cases msgName pt nested (toEmit acc.2) (gen acc.2)) as (pt' & q & ->).
  intros [= <-]. split; [apply extends_write|done].
Qed.

Lemma emitBranches_step msgName prefix branches acc acc' :
  forEach (emitBranch ft msgName prefix) branches acc = Ok acc' →
  bodyStep (length branches) acc.2 acc'.2.
Proof.
  revert acc. induction branches as [|x branches IH]; intros acc; cbn [forEach].
  - intros [= <-]. split; [apply extends_refl|done].
  - destruct (emitBranch _ _ _ _ _) as [a| | |] eqn:E; [|done..].
    rewrite bind_Ok. intros Hrest. apply emitBranch_step in E. apply IH in Hrest.
    apply (bodyStep_trans 1 (length branches) _ _ _ E Hrest).
Qed.

Lemma writeBody_step text bs : bodyStep 0 bs (writeBody text bs).
Proof. split; [apply extends_write|done]. Qed.

Lemma emitOneOf_step msgName s bs bs' :
  emitOneOf ft msgName s bs = Ok bs' → bodyStep (length (elems (OneOf s))) bs bs'.
Proof.
  unfold emitOneOf. destruct (0 <? length (elems (OneOf s))) eqn:E.
  - destruct (forEach _ _ _) as [[idx b]| | |] eqn:Eloop; [|done..].
    rewrite bind_Ok. cbv beta iota. intros [= <-]. apply emitBranches_step in Eloop.
    pose proof (bodyStep_trans _ _ _ _ _
                  (bodyStep_trans _ _ _ _ _ (writeBody_step _ bs) Eloop)
                  (writeBody_step ("  }" +:+ String "010" "") b)) as H.
    by rewrite Nat.add_0_r in H.
  - apply Nat.ltb_ge in E. intros [= <-].
    replace (length (elems (OneOf s))) with 0 by lia. split; [apply extends_refl|done].
Qed.

Lemma emitAnyOf_step msgName s bs bs' :
  emitAnyOf g ft msgName s bs = Ok bs' → bodyStep (anyOfFields g s) bs bs'.
Proof.
  unfold emitAnyOf, anyOfFields. destruct (elems (AnyOf s)) as [|first rest] eqn:Ebr.
  - intros [= <-]. split; [apply extends_refl|done].
  - destruct (String.eqb (anyOfMode g) "repeat").
    + destruct (ft "anyof_value" first) as [[pt nested]| | |]; [|done..].
      rewrite bind_Ok. cbv beta iota.
      destruct (flatten_cases msgName pt nested (toEmit bs) (gen bs)) as (pt' & q & ->).
      intros [= <-]. split; [apply extends_write|done].
    + destruct (forEach _ _ _) as [[idx b]| | |] eqn:Eloop; [|done..].
      rewrite bind_Ok. cbv beta iota. intros [= <-]. apply emitBranches_step in Eloop.
      pose proof (bodyStep_trans _ _ _ _ _
                    (bodyStep_trans _ _ _ _ _ (writeBody_step _ bs) Eloop)
                    (writeBody_step ("  }" +:+ String "010" "") b)) as H.
      by rewrite Nat.add_0_r in H.
Qed.

End Body.

End Emitter.

(** ** The message emitter as a whole *)

Lemma allOf_loop_resolves order (doc : Registry) (parts : list (option Schema)) acc r :
  forEach (λ '(merged, st) part,
            match resolveRef doc part with
            | None => Panic
            | Some add => Ok (mergeInto order merged add st)
            end) parts acc = Ok r →
  Forall (λ part, resolveRef doc part ≠ None) parts.
Proof.
  revert acc. induction parts as [|part parts IH]; intros [m st]; [by constructor|].
  cbn [forEach]. destruct (resolveRef doc part) as [add|] eqn:E; [|done].
  rewrite bind_Ok. intros Hrest. constructor; [by rewrite E|by eapply IH].
Qed.

Lemma mergeAllOf_Ok order (g : genContext) (s merged : Schema) (st st' : genState) :
  validOrder order →
  mergeAllOf order g s st = Ok (merged, st') →
  Required merged = Required s
  ∧ propsOf merged = propsOf s ∪ foldBranches (doc g) (elems (AllOf s)) ∅
  ∧ out st' = out st ∧ visited st' = visited st.
Proof.
  intros Hord Hrun.
  assert (Forall (λ part, resolveRef (doc g) part ≠ None) (elems (AllOf s))) as Hparts.
  { unfold mergeAllOf in Hrun.
    destruct (forEach _ _ _) as [r| | |] eqn:E; [|done..]. by eapply allOf_loop_resolves. }
  destruct (mergeAllOf_spec order g s st Hord Hparts) as (m & st1 & Hrun' & H).
  rewrite Hrun in Hrun'. by injection Hrun' as -> ->.
Qed.

Lemma propNames_spec order (g : genContext) (merged : Schema) (st : genState) :
  validOrder order →
  (propNames order g merged st).1 ≡ₚ keys (propsOf merged)
  ∧ (propNames order g merged st).2 = nextTick st.
Proof.
  intros Hord. unfold propNames, rangeKeys. cbn. split; [|done].
  destruct (sortFields g); [|apply Hord].
  unfold sortStrings. rewrite merge_sort_Permutation. apply Hord.
Qed.

Lemma length_keys {V} (m : gmap string V) : length (keys m) = size m.
Proof. unfold keys. by rewrite length_fmap, length_map_to_list. Qed.

Lemma emitEnum_extends (name : string) (s : Schema) (st : genState) :
  extends st (emitEnum name s st).
Proof.
  unfold emitEnum. apply extends_write_r.
  generalize (imap pair (Enum s)). intros l.
  set (st0 := write _ (write _ st)).
  assert (extends st st0) as H0 by (repeat apply extends_write_r; apply extends_refl).
  clearbody st0. revert st0 H0. induction l as [|x l IH]; intros st0 H0; [done|].
  cbn [foldl]. apply IH. by apply extends_write_r.
Qed.

Section Messages.

Variable order : nat → list string → list string.
Variable g : genContext.
Hypothesis Hord : validOrder order.

Section Body.

Variable rec : string → option Schema → genState → result genState.
Variable ft : string → option Schema → result (string * nestedReq).
Hypothesis Hrec : ∀ n s st st', rec n s st = Ok st' → extends st st'.

(** The counter of a message body ends one above the number of fields
    written from properties, oneOf branches and anyOf branches; the
    entries field of a map shape is not counted. *)
Lemma emitBody_step (name : string) (s : Schema) (st : genState) (bs : bodyState) :
  emitBody order g rec ft name s st = Ok bs →
  extends st (gen bs)
  ∧ fieldNum bs = 1 + size (propsOf s ∪ foldBranches (doc g) (elems (AllOf s)) ∅)
                  + length (elems (OneOf s)) + anyOfFields g s.
Proof.
  unfold emitBody.
  destruct (mergeAllOf order g s _) as [[merged st1]| | |] eqn:Em; [|done..].
  rewrite bind_Ok. cbv beta iota.
  pose proof (mergeAllOf_extends _ _ _ _ _ _ Em) as Hx1.
  apply (mergeAllOf_Ok _ _ _ _ _ _ Hord) in Em as (_ & Hprops & _ & _).
  destruct (propNames_spec order g merged st1 Hord) as [Hnames Hst2].
  destruct (propNames order g merged st1) as [names st2]. cbn [fst snd] in Hnames, Hst2.
  destruct (forEach (emitProperty _ _ _ _) names _) as [bs1| | |] eqn:E1; [|done..].
  rewrite bind_Ok.
  destruct (emitMapEntries rec ft s merged bs1) as [bs2| | |] eqn:E2; [|done..].
  rewrite bind_Ok.
  destruct (emitOneOf ft _ s bs2) as [bs3| | |] eqn:E3; [|done..].
  rewrite bind_Ok. intros E4.
  apply emitProperties_step in E1 as [X1 N1].
  apply (emitMapEntries_step rec ft Hrec) in E2 as [X2 N2].
  apply emitOneOf_step in E3 as [X3 N3].
  apply emitAnyOf_step in E4 as [X4 N4].
  cbn [gen fieldNum] in X1, N1. split.
  - eapply extends_trans; [apply extends_write|].
    eapply extends_trans; [exact Hx1|]. subst st2.
    eapply extends_trans; [apply extends_nextTick|].
    eapply extends_trans; [exact X1|].
    eapply extends_trans; [exact X2|].
    eapply extends_trans; [exact X3|exact X4].
  - rewrite N4, N3, N2, N1, (Permutation_length Hnames), length_keys, Hprops. lia.
Qed.

Lemma drain_extends (queue : list pending) (st st' : genState) :
  drain rec queue st = Ok st' → extends st st'.
Proof.
  apply forEach_invariant; [apply extends_refl|apply extends_trans|].
  intros a p a'. apply Hrec.
Qed.

Lemma emitMessageWith_extends (name : string) (s : Schema) (st st' : genState) :
  emitMessageWith order g rec ft name s st = Ok st' → extends st st'.
Proof.
  unfold emitMessageWith.
  destruct (emitBody order g rec ft name s st) as [bs| | |] eqn:E; [|done..].
  rewrite bind_Ok. intros Hd. apply emitBody_step in E as [X _]. apply drain_extends in Hd.
  eapply extends_trans; [exact X|]. eapply extends_trans; [apply extends_write|exact Hd].
Qed.

End Body.

(** The emitter only ever appends to the builder. *)
Lemma emitSchema_extends (fuel : nat) (name : string) (s : option Schema) (st st' : genState) :
  emitSchema order g fuel name s st = Ok st' → extends st st'.
Proof.
  revert name s st st'. induction fuel as [|fuel IH]; intros name s st st'; [done|].
  cbn [emitSchema]. destruct (isVisited name st); [intros [= <-]; apply extends_refl|].
  destruct (resolveRef (doc g) s) as [resolved|]; [|done].
  destruct (0 <? length (Enum resolved)).
  { intros [= <-]. eapply extends_trans; [apply extends_markVisited|apply emitEnum_extends]. }
  destruct (isMessageShaped resolved).
  - intros Hm. apply (emitMessageWith_extends _ _ IH) in Hm.
    eapply extends_trans; [apply extends_markVisited|exact Hm].
  - destruct (scalarType (doc g) (Some resolved)) as [t| | |]; [|done..].
    rewrite bind_Ok. intros [= <-].
    eapply extends_trans; [apply extends_markVisited|].
    repeat apply extends_write_r. apply extends_refl.
Qed.

End Messages.

(** ** Where the value message of a map shape is written *)

Lemma keys_empty {V} : keys (∅ : gmap string V) = [].
Proof. unfold keys. by rewrite map_to_list_empty. Qed.

(** For every map-shaped schema whose value type asks for synthesis, the
    text of the value message lies between the header line of the
    enclosing message and its entries field. *)
Lemma map_value_text_placement order (g : genContext) (fuel : nat) (name : string)
    (s addl schema : Schema) (vt n : string) (st st' : genState) :
  validOrder order →
  AddlProps s = Some addl → propsOf s = ∅ → elems (AllOf s) = [] →
  fieldType fuel (doc g) "value" (Some addl) = Ok (vt, Some (n, schema)) →
  emitMessage order g fuel name s st = Ok st' →
  ∃ stq stv valueText rest,
    out stq = out st +:+ ("message " +:+ normalizeMessage name +:+ " {" +:+ String "010" "")
    ∧ visited stq = visited st
    ∧ emitSchema order g fuel n (Some schema) stq = Ok stv
    ∧ out stv = out stq +:+ valueText
    ∧ out st' = out stv +:+ ("  map<string," +:+ vt +:+ "> entries = 1;" +:+ String "010" "")
                +:+ rest.
Proof.
  intros Hord Haddl Hprops Hall Hft. unfold emitMessage, emitMessageWith.
  destruct (emitBody _ _ _ _ _ _ _) as [bs| | |] eqn:Eb; [|done..].
  rewrite bind_Ok. intros Hd.
  apply (drain_extends _ (emitSchema_extends order g Hord fuel)) in Hd as [tail Htail].
  unfold emitBody in Eb.
  destruct (mergeAllOf order g s _) as [[merged st1]| | |] eqn:Em; [|done..].
  rewrite bind_Ok in Eb. cbv beta iota in Eb.
  apply (mergeAllOf_Ok _ _ _ _ _ _ Hord) in Em as (_ & Hmerged & Hout1 & Hvis1).
  rewrite Hprops, Hall in Hmerged. cbn in Hmerged. rewrite (left_id_L ∅ (∪)) in Hmerged.
  destruct (propNames_spec order g merged st1 Hord) as [Hnames Hst2].
  destruct (propNames order g merged st1) as [names st2]. cbn [fst snd] in Hnames, Hst2.
  rewrite Hmerged, keys_empty in Hnames. apply Permutation_nil_r in Hnames. subst names st2.
  cbn [forEach] in Eb. rewrite bind_Ok in Eb.
  unfold emitMapEntries in Eb. rewrite Haddl, Hmerged, map_size_empty in Eb. cbn [Nat.eqb] in Eb.
  rewrite Hft, bind_Ok in Eb. cbv beta iota in Eb. cbn [gen toEmit fieldNum] in Eb.
  destruct (emitSchema order g fuel n (Some schema) (nextTick st1)) as [stv| | |] eqn:Ev;
    [|done..].
  rewrite !bind_Ok in Eb.
  destruct (emitOneOf _ _ s _) as [bs3| | |] eqn:E3; [|done..].
  rewrite bind_Ok in Eb.
  apply emitOneOf_step in E3 as [[t3 X3] _]. apply emitAnyOf_step in Eb as [[t4 X4] _].
  cbn [gen] in X3.
  pose proof (emitSchema_extends _ _ Hord _ _ _ _ _ Ev) as [valueText Hv].
  exists (nextTick st1), stv, valueText,
    (t3 +:+ t4 +:+ ("}" +:+ String "010" (String "010" "")) +:+ tail).
  split; [by cbn [out nextTick]; rewrite Hout1|].
  split; [by cbn [visited nextTick]; rewrite Hvis1|]. split; [done|]. split; [done|].
  rewrite Htail. cbn [out write]. rewrite X4, X3. cbn [out write].
  by rewrite !append_assoc.
Qed.

(** ** The emitter on concrete schemas *)



(** C1. Field numbers of a message do not always form the sequence
    1, 2, 3, ...: the entries field of a map-shaped message is written
    with the constant 1 and does not advance the counter, so the first
    oneOf branch of the same message is numbered 1 again. *)
Theorem map_entries_number_repeated :
  textOf (emitMessage orderAsListed (context ∅ true) 2 "Tags" mapWithOneOf start)
  = Ok "message Tags {
  map<string,string> entries = 1;
  oneof one_of {
    string choice_1 = 1;
    int64 choice_2 = 2;
  }
}

".
Proof. vm_compute. reflexivity. Qed.

(** C3. A property that is an array of objects is declared with the
    flattened element type alone: the type mapper answers
    [repeated TagsItem], and the emitter replaces the whole of it by the
    flattened name, so the field is not [repeated]. *)
Theorem array_of_objects_loses_repeated :
  fst <$> (match fieldType 3 ∅ "tags" (index (propsOf petWithTags) "tags") with
           | Ok r => Some r
           | _ => None
           end) = Some "repeated TagsItem"
  ∧ textOf (emitMessage orderAsListed (context ∅ true) 3 "Pet" petWithTags start)
    = Ok "message Pet {
  PetTagsItem tags = 1;
}

message PetTagsItem {
  string label = 1;
}

".
Proof. split; vm_compute; reflexivity. Qed.

(** C2. The value message of a map-shaped object is written by a direct
    call of the emitter after the header line of the enclosing message is
    already in the builder: its text lies inside the enclosing block,
    between the header and the entries field, not ahead of the block. *)
Theorem map_value_emitted_inside_block :
  textOf (emitMessage orderAsListed (context ∅ true) 3 "Parent"
            (mapOf (object {[ "hex" := Some (scalar "string" "") ]})) start)
  = Ok "message Parent {
message Value {
  string hex = 1;
}

  map<string,Value> entries = 1;
}

".
Proof. vm_compute. reflexivity. Qed.

(** C4. The value message of a map-shaped object is emitted under the
    bare name [Value], without the name of the enclosing message: of two
    map-shaped schemas only the first gets its value message, and the
    second refers to it. *)
Theorem map_value_name_lacks_parent :
  generate orderAsListed (context twoMaps true) 4 "api.v1" "example.com/api;v1"
  = Ok (header "api.v1" "example.com/api;v1" +:+ "message Colors {
message Value {
  string hex = 1;
}

  map<string,Value> entries = 1;
}

message Sizes {
  map<string,Value> entries = 1;
}

").
Proof. vm_compute. reflexivity. Qed.




(** * Further properties *)

(** ** Trimming *)

Lemma forallb_dropWhile (f p : ascii → bool) (s : string) :
  Strings.forallb f s = true → Strings.forallb f (Strings.dropWhile p s) = true.
Proof.
  induction s as [|c s IH]; [done|]. cbn. intros H.
  destruct (p c); [|done]. apply andb_true_iff in H as [_ H]. by apply IH.
Qed.

Lemma forallb_dropWhileEnd (f p : ascii → bool) (s : string) :
  Strings.forallb f s = true → Strings.forallb f (Strings.dropWhileEnd p s) = true.
Proof.
  induction s as [|c s IH]; [done|]. cbn. intros [Hc Hs]%andb_true_iff.
  specialize (IH Hs). destruct (Strings.dropWhileEnd p s) as [|d r].
  - destruct (p c); [done|]. cbn. by rewrite Hc.
  - cbn in IH |- *. by rewrite Hc, IH.
Qed.

Lemma firstByte_dropWhile (p : ascii → bool) (s : string) (c : ascii) :
  firstByte (Strings.dropWhile p s) = Some c → p c = false.
Proof.
  induction s as [|d s IH]; [done|]. cbn. destruct (p d) eqn:E; [done|].
  cbn. by intros [= <-].
Qed.

Lemma firstByte_dropWhileEnd (p : ascii → bool) (s : string) (c : ascii) :
  firstByte (Strings.dropWhileEnd p s) = Some c → firstByte s = Some c.
Proof.
  destruct s as [|d s]; [done|]. cbn.
  destruct (Strings.dropWhileEnd p s); [by destruct (p d)|done].
Qed.

Lemma lastByte_dropWhileEnd (p : ascii → bool) (s : string) (c : ascii) :
  lastByte (Strings.dropWhileEnd p s) = Some c → p c = false.
Proof.
  induction s as [|d s IH]; [done|]. cbn.
  destruct (Strings.dropWhileEnd p s) as [|e r] eqn:E.
  - destruct (p d) eqn:Ed; [done|]. cbn. by intros [= <-].
  - intros H. apply IH. exact H.
Qed.

Lemma dropWhile_fixed (p : ascii → bool) (s : string) :
  (∀ c, firstByte s = Some c → p c = false) → Strings.dropWhile p s = s.
Proof. destruct s as [|d s]; [done|]. cbn. intros H. by rewrite (H d). Qed.

Lemma dropWhileEnd_fixed (p : ascii → bool) (s : string) :
  (∀ c, lastByte s = Some c → p c = false) → Strings.dropWhileEnd p s = s.
Proof.
  induction s as [|d s IH]; [done|]. intros H. cbn.
  destruct s as [|e s].
  - cbn. by rewrite (H d).
  - rewrite IH by (intros c Hc; apply H; exact Hc). done.
Qed.

Lemma forallb_map (f : ascii → bool) (h : ascii → ascii) (s : string) :
  Strings.forallb f (Strings.map h s) = Strings.forallb (λ c, f (h c)) s.
Proof. induction s as [|c s IH]; [done|]. cbn. by rewrite IH. Qed.

Lemma forallb_true (f : ascii → bool) (s : string) :
  (∀ c, f c = true) → Strings.forallb f s = true.
Proof. intros H. induction s as [|c s IH]; [done|]. cbn. by rewrite H, IH. Qed.

(** ** Field names *)

Lemma lowerSnakeLoop_fieldBytes (i : nat) (s : string) :
  Strings.forallb isFieldByte (lowerSnakeLoop i s) = true.
Proof.
  revert i. induction s as [|r s IH]; intros i; [done|]. cbn [lowerSnakeLoop].
  destruct (Strings.isUpper r) eqn:Eu.
  - assert (isFieldByte (Strings.lowerByte r) = true) as Hl.
    { revert Eu. by destruct r as [[] [] [] [] [] [] [] []]. }
    destruct (0 <? i); cbn [Strings.forallb]; rewrite Hl, IH; done.
  - destruct (Strings.isLower r || Strings.isDigit r) eqn:El;
      cbn [Strings.forallb]; rewrite IH, andb_true_r.
    + unfold isFieldByte. by rewrite El.
    + done.
Qed.

Lemma lowerSnakeLoop_fixed (i : nat) (r : string) :
  Strings.forallb isFieldByte r = true → lowerSnakeLoop i r = r.
Proof.
  revert i. induction r as [|c r IH]; intros i; [done|].
  cbn [Strings.forallb lowerSnakeLoop].
  intros [Hc Hr]%andb_true_iff. rewrite (IH _ Hr).
  revert Hc. by destruct c as [[] [] [] [] [] [] [] []].
Qed.

Lemma lowerSnake_shape (s : string) :
  Strings.forallb isFieldByte (lowerSnake s) = true
  ∧ firstByte (lowerSnake s) ≠ Some "_"%char
  ∧ lastByte (lowerSnake s) ≠ Some "_"%char.
Proof.
  unfold lowerSnake, Strings.Trim. split; [|split].
  - apply forallb_dropWhileEnd, forallb_dropWhile, lowerSnakeLoop_fieldBytes.
  - intros H. apply firstByte_dropWhileEnd, firstByte_dropWhile in H. done.
  - intros H. apply lastByte_dropWhileEnd in H. done.
Qed.

Lemma lowerSnake_fixed (r : string) :
  Strings.forallb isFieldByte r = true →
  firstByte r ≠ Some "_"%char → lastByte r ≠ Some "_"%char →
  lowerSnake r = r.
Proof.
  intros Hr Hf Hl. unfold lowerSnake, Strings.TrimSpace, Strings.Trim.
  assert (∀ c, firstByte r = Some c → Strings.isSpace c = false) as Hfs.
  { intros c Hc. destruct r as [|d r]; [done|]. injection Hc as ->.
    cbn in Hr. apply andb_true_iff in Hr as [Hc _]. revert Hc.
    by destruct c as [[] [] [] [] [] [] [] []]. }
  assert (∀ c, lastByte r = Some c → Strings.isSpace c = false) as Hls.
  { clear Hf Hl Hfs. induction r as [|d r IH]; [done|]. intros c.
    cbn in Hr. apply andb_true_iff in Hr as [Hd Hr]. destruct r as [|e r].
    - intros [= <-]. revert Hd. by destruct d as [[] [] [] [] [] [] [] []].
    - intros Hc. by apply IH. }
  rewrite (dropWhile_fixed _ _ Hfs), (dropWhileEnd_fixed _ _ Hls), (lowerSnakeLoop_fixed _ _ Hr).
  rewrite dropWhile_fixed, dropWhileEnd_fixed; [done| |].
  - intros c Hc. apply Ascii.eqb_neq. intros ->. done.
  - intros c Hc. apply Ascii.eqb_neq. intros ->. done.
Qed.

Lemma nonAlnumReplace_fieldBytes (r : string) :
  Strings.forallb isFieldByte r = true → nonAlnumReplace r = r.
Proof.
  intros Hr. apply map_id_on. revert Hr. apply forallb_impl.
  intros c. by destruct c as [[] [] [] [] [] [] [] []].
Qed.

(** X1. A normalized field name consists of lower-case letters, digits
    and underscores, and neither starts nor ends with an underscore. *)
Theorem normalizeField_shape (s : string) :
  asciiText s = true →
  Strings.forallb isFieldByte (normalizeField s) = true
  ∧ firstByte (normalizeField s) ≠ Some "_"%char
  ∧ lastByte (normalizeField s) ≠ Some "_"%char.
Proof. intros _. apply lowerSnake_shape. Qed.

Lemma normalizeField_shape_witness :
  normalizeField " Pet-Owner.id_ " = "pet__owner_id"
  ∧ Strings.forallb isFieldByte (normalizeField " Pet-Owner.id_ ") = true
  ∧ firstByte (normalizeField " Pet-Owner.id_ ") ≠ Some "_"%char
  ∧ lastByte (normalizeField " Pet-Owner.id_ ") ≠ Some "_"%char.
Proof.
  split; [reflexivity|]. apply (normalizeField_shape " Pet-Owner.id_ "). reflexivity.
Defined.

(** X2. The field-name normalizer is idempotent: a normalized field name
    is left as it is. *)
Theorem normalizeField_idempotent (s : string) :
  asciiText s = true → normalizeField (normalizeField s) = normalizeField s.
Proof.
  intros _. destruct (lowerSnake_shape (nonAlnumReplace s)) as (Hb & Hf & Hl).
  unfold normalizeField at 1. fold (normalizeField s) in Hb, Hf, Hl.
  rewrite (nonAlnumReplace_fieldBytes _ Hb). by apply lowerSnake_fixed.
Qed.

Lemma normalizeField_idempotent_witness :
  normalizeField "UserProfile" = "user_profile"
  ∧ normalizeField (normalizeField "UserProfile") = normalizeField "UserProfile".
Proof.
  split; [reflexivity|]. apply (normalizeField_idempotent "UserProfile"). reflexivity.
Defined.

(** ** Type names, enum member names and comments *)

(** X3. A normalized type name contains none of the bytes [_], [-], [.]
    and space, and does not start with a lower-case letter. *)
Theorem normalizeMessage_shape (s : string) :
  asciiText s = true →
  separatorFree (normalizeMessage s) = true
  ∧ ∀ c, firstByte (normalizeMessage s) = Some c → Strings.isLower c = false.
Proof.
  intros _. split; [apply normalizeMessage_separatorFree|].
  intros c Hc. pose proof (normalizeMessage_capitalised s) as Hcap.
  destruct (normalizeMessage s) as [|d r]; [done|]. injection Hc as ->.
  cbn in Hcap. revert Hcap. by destruct c as [[] [] [] [] [] [] [] []].
Qed.

Lemma normalizeMessage_shape_witness :
  normalizeMessage "pet-owner.v2 id" = "PetOwnerV2Id"
  ∧ separatorFree (normalizeMessage "pet-owner.v2 id") = true
  ∧ ∀ c, firstByte (normalizeMessage "pet-owner.v2 id") = Some c → Strings.isLower c = false.
Proof.
  split; [reflexivity|]. apply (normalizeMessage_shape "pet-owner.v2 id"). reflexivity.
Defined.

Lemma Join_empty (ps : list string) :
  Strings.Join ps = EmptyString ↔ Forall (λ p, p = EmptyString) ps.
Proof.
  induction ps as [|p ps IH]; [by split; [constructor|]|]. cbn. split.
  - intros H. destruct p as [|c p]; [|done]. constructor; [done|]. by apply IH.
  - intros H. inversion H as [|? ? -> H']; subst. by apply IH.
Qed.

Lemma upperCamelPart_empty (p : string) : upperCamelPart p = EmptyString ↔ p = EmptyString.
Proof.
  split; [|by intros ->]. unfold upperCamelPart. destruct p as [|c rest]; [done|].
  destruct (isAllUpper _ && _); [done|]. by destruct (String.length _ =? 1).
Qed.

Lemma Split_all_empty (t : string) (sep : ascii) :
  Forall (λ p, p = EmptyString) (Strings.Split t sep)
  ↔ Strings.forallb (λ c, Ascii.eqb c sep) t = true.
Proof.
  induction t as [|c t IH]; [by split; [|repeat constructor]|]. cbn.
  destruct (Ascii.eqb c sep).
  - cbn. rewrite <- IH. split; [by inversion 1|by constructor].
  - cbn. split; [|done]. destruct (Strings.Split t sep); by inversion 1.
Qed.

Lemma nonAlnumReplace_underscores (s : string) :
  Strings.forallb (λ c, Ascii.eqb c "_") (nonAlnumReplace s) = Strings.forallb isSeparator s.
Proof.
  unfold nonAlnumReplace. rewrite forallb_map. induction s as [|c s IH]; [done|].
  cbn. rewrite IH. f_equal. by destruct c as [[] [] [] [] [] [] [] []].
Qed.

(** X4. The normalized type name is empty exactly when the name consists
    of separator bytes only (or is empty): such a schema or property name
    yields a message with no name. *)
Theorem normalizeMessage_empty_iff (s : string) :
  asciiText s = true →
  normalizeMessage s = EmptyString ↔ Strings.forallb isSeparator s = true.
Proof.
  intros _. rewrite <- nonAlnumReplace_underscores. unfold normalizeMessage, upperCamel.
  destruct (String.eqb_spec (nonAlnumReplace s) "") as [->|_]; [done|].
  rewrite Join_empty, Forall_fmap, <- Split_all_empty.
  apply Forall_iff. intros p. apply upperCamelPart_empty.
Qed.

Lemma normalizeMessage_empty_iff_witness :
  normalizeMessage "-_. " = EmptyString ↔ Strings.forallb isSeparator "-_. " = true.
Proof. apply (normalizeMessage_empty_iff "-_. "). reflexivity. Defined.

(** X5. An enum member suffix contains no lower-case letter, hyphen or
    space. *)
Theorem toEnumValue_shape (s : string) :
  asciiText s = true → Strings.forallb isEnumByte (toEnumValue s) = true.
Proof.
  intros _. unfold toEnumValue, Strings.ReplaceAll, Strings.ToUpper.
  rewrite !forallb_map. apply forallb_true.
  intros c. by destruct c as [[] [] [] [] [] [] [] []].
Qed.

Lemma toEnumValue_shape_witness :
  toEnumValue "in-progress now" = "IN_PROGRESS_NOW"
  ∧ Strings.forallb isEnumByte (toEnumValue "in-progress now") = true.
Proof.
  split; [reflexivity|]. apply (toEnumValue_shape "in-progress now"). reflexivity.
Defined.

(** X6. The comment made of a description never contains a line feed,
    and has no white space at either end: a description cannot spill out
    of its trailing comment onto a line of its own. *)
Theorem oneline_shape (s : string) :
  asciiText s = true →
  Strings.forallb (λ c, negb (isLineFeed c)) (oneline s) = true
  ∧ (∀ c, firstByte (oneline s) = Some c → Strings.isSpace c = false)
  ∧ (∀ c, lastByte (oneline s) = Some c → Strings.isSpace c = false).
Proof.
  intros _. unfold oneline, Strings.TrimSpace. split; [|split].
  - apply forallb_dropWhileEnd, forallb_dropWhile.
    unfold Strings.ReplaceAll. rewrite forallb_map. apply forallb_true.
    intros c. by destruct c as [[] [] [] [] [] [] [] []].
  - intros c Hc. by apply firstByte_dropWhileEnd, firstByte_dropWhile in Hc.
  - intros c Hc. by apply lastByte_dropWhileEnd in Hc.
Qed.

Lemma oneline_shape_witness :
  oneline " first
second " = "first second"
  ∧ Strings.forallb (λ c, negb (isLineFeed c)) (oneline " first
second ") = true.
Proof.
  split; [reflexivity|]. apply (oneline_shape " first
second "). reflexivity.
Defined.

(** ** What every step of the emitter preserves *)

Section Preserved.

(** A relation between the state before and after, kept by the three
    primitive updates of the state. *)
Variable R : genState → genState → Prop.
Hypothesis R_refl : ∀ st, R st st.
Hypothesis R_trans : ∀ a b c, R a b → R b c → R a c.
Hypothesis R_write : ∀ text st, R st (write text st).
Hypothesis R_tick : ∀ st, R st (nextTick st).
Hypothesis R_mark : ∀ name st, R st (markVisited name st).

Variable order : nat → list string → list string.
Variable g : genContext.

Lemma R_write_r text st st' : R st st' → R st (write text st').
Proof. intros H. eapply R_trans; [exact H|apply R_write]. Qed.

Lemma mergeAllOf_preserves (s merged : Schema) (st st' : genState) :
  mergeAllOf order g s st = Ok (merged, st') → R st st'.
Proof.
  unfold mergeAllOf.
  destruct (forEach _ _ _) as [[m st1]| | |] eqn:E; [|done..].
  rewrite bind_Ok. cbv beta iota. unfold copyInto, rangeKeys. intros [= _ <-].
  apply (forEach_invariant (λ a b, R a.2 b.2)) in E; cbn in E.
  - eapply R_trans; [exact E|apply R_tick].
  - intros a. apply R_refl.
  - intros a b c. apply R_trans.
  - intros [a sa] x [a' sa']. destruct (resolveRef (doc g) x); [|done].
    unfold mergeInto, copyInto, rangeKeys. intros [= _ <-]. apply R_tick.
Qed.

Section Body.

Variable rec : string → option Schema → genState → result genState.
Variable ft : string → option Schema → result (string * nestedReq).
Hypothesis Hrec : ∀ n s st st', rec n s st = Ok st' → R st st'.

Lemma emitProperty_preserves msgName merged bs prop bs' :
  emitProperty g ft msgName merged bs prop = Ok bs' → R (gen bs) (gen bs').
Proof.
  unfold emitProperty.
  destruct (ft prop _) as [[pt nested]| | |]; [|done..]. rewrite bind_Ok. cbv beta iota.
  destruct (flatten_cases msgName pt nested (toEmit bs) (gen bs)) as (pt' & q & ->).
  destruct (index _ prop) as [p|]; [|done]. intros [= <-]. cbn [gen].
  apply R_write_r. destruct (negb _); repeat apply R_write_r; apply R_refl.
Qed.

Lemma emitMapEntries_preserves s merged bs bs' :
  emitMapEntries rec ft s merged bs = Ok bs' → R (gen bs) (gen bs').
Proof.
  unfold emitMapEntries.
  destruct (AddlProps s) as [addl|]; [|intros [= <-]; apply R_refl].
  destruct (size _ =? 0); [|intros [= <-]; apply R_refl].
  destruct (ft "value" _) as [[vt nested]| | |]; [|done..]. rewrite bind_Ok. cbv beta iota.
  destruct nested as [[n schema]|].
  - destruct (rec n (Some schema) (gen bs)) as [stv| | |] eqn:E; [|done..].
    rewrite bind_Ok. intros [= <-]. cbn [gen]. apply R_write_r. by eapply Hrec.
  - rewrite bind_Ok. intros [= <-]. apply R_write.
Qed.

Lemma emitBranch_preserves msgName prefix acc branch acc' :
  emitBranch ft msgName prefix acc branch = Ok acc' → R (gen acc.2) (gen acc'.2).
Proof.
  unfold emitBranch.
  destruct (ft _ branch) as [[pt nested]| | |]; [|done..]. rewrite bind_Ok. cbv beta iota.
  destruct (flatten_cases msgName pt nested (toEmit acc.2) (gen acc.2)) as (pt' & q & ->).
  intros [= <-]. apply R_write.
Qed.

Lemma emitBranches_preserves msgName prefix branches acc acc' :
  forEach (emitBranch ft msgName prefix) branches acc = Ok acc' → R (gen acc.2) (gen acc'.2).
Proof.
  apply (forEach_invariant (λ a b, R (gen a.2) (gen b.2))).
  - intros a. apply R_refl.
  - intros a b c. apply R_trans.
  - intros a x a'. apply emitBranch_preserves.
Qed.

Lemma emitOneOf_preserves msgName s bs bs' :
  emitOneOf ft msgName s bs = Ok bs' → R (gen bs) (gen bs').
Proof.
  unfold emitOneOf. destruct (0 <? length (elems (OneOf s))); [|intros [= <-]; apply R_refl].
  destruct (forEach _ _ _) as [[idx b]| | |] eqn:Eloop; [|done..].
  rewrite bind_Ok. cbv beta iota. intros [= <-]. apply emitBranches_preserves in Eloop.
  cbn in Eloop |- *. apply R_write_r. eapply R_trans; [apply R_write|exact Eloop].
Qed.

Lemma emitAnyOf_preserves msgName s bs bs' :
  emitAnyOf g ft msgName s bs = Ok bs' → R (gen bs) (gen bs').
Proof.
  unfold emitAnyOf. destruct (elems (AnyOf s)) as [|first rest]; [intros [= <-]; apply R_refl|].
  destruct (String.eqb (anyOfMode g) "repeat").
  - destruct (ft "anyof_value" first) as [[pt nested]| | |]; [|done..].
    rewrite bind_Ok. cbv beta iota.
    destruct (flatten_cases msgName pt nested (toEmit bs) (gen bs)) as (pt' & q & ->).
    intros [= <-]. apply R_write.
  - destruct (forEach _ _ _) as [[idx b]| | |] eqn:Eloop; [|done..].
    rewrite bind_Ok. cbv beta iota. intros [= <-]. apply emitBranches_preserves in Eloop.
    cbn in Eloop |- *. apply R_write_r. eapply R_trans; [apply R_write|exact Eloop].
Qed.

Lemma emitBody_preserves name s st bs :
  emitBody order g rec ft name s st = Ok bs → R st (gen bs).
Proof.
  unfold emitBody.
  destruct (mergeAllOf order g s _) as [[merged st1]| | |] eqn:Em; [|done..].
  rewrite bind_Ok. cbv beta iota. apply mergeAllOf_preserves in Em.
  unfold propNames, rangeKeys.
  destruct (forEach (emitProperty _ _ _ _) _ _) as [bs1| | |] eqn:E1; [|done..].
  rewrite bind_Ok.
  destruct (emitMapEntries rec ft s merged bs1) as [bs2| | |] eqn:E2; [|done..].
  rewrite bind_Ok.
  destruct (emitOneOf ft _ s bs2) as [bs3| | |] eqn:E3; [|done..].
  rewrite bind_Ok. intros E4.
  apply (forEach_invariant (λ a b, R (gen a) (gen b))) in E1;
    [|intros; apply R_refl|intros a b c; apply R_trans
     |intros a x a'; apply emitProperty_preserves].
  apply emitMapEntries_preserves in E2. apply emitOneOf_preserves in E3.
  apply emitAnyOf_preserves in E4. cbn [gen] in E1.
  eapply R_trans; [apply R_write|]. eapply R_trans; [exact Em|].
  eapply R_trans; [apply R_tick|]. eapply R_trans; [exact E1|].
  eapply R_trans; [exact E2|]. eapply R_trans; [exact E3|exact E4].
Qed.

Lemma emitMessageWith_preserves name s st st' :
  emitMessageWith order g rec ft name s st = Ok st' → R st st'.
Proof.
  unfold emitMessageWith.
  destruct (emitBody order g rec ft name s st) as [bs| | |] eqn:E; [|done..].
  rewrite bind_Ok. intros Hd. apply emitBody_preserves in E.
  apply (forEach_invariant R) in Hd; [|done|done|intros a p a'; apply Hrec].
  eapply R_trans; [exact E|]. eapply R_trans; [apply R_write|exact Hd].
Qed.

End Body.

Lemma emitEnum_preserves (name : string) (s : Schema) (st : genState) :
  R st (emitEnum name s st).
Proof.
  unfold emitEnum. apply R_write_r.
  generalize (imap pair (Enum s)). intros l.
  set (st0 := write _ (write _ st)).
  assert (R st st0) as H0 by (repeat apply R_write_r; apply R_refl).
  clearbody st0. revert st0 H0. induction l as [|x l IH]; intros st0 H0; [done|].
  cbn [foldl]. apply IH. by apply R_write_r.
Qed.

Lemma emitSchema_preserves (fuel : nat) (name : string) (s : option Schema)
    (st st' : genState) :
  emitSchema order g fuel name s st = Ok st' → R st st'.
Proof.
  revert name s st st'. induction fuel as [|fuel IH]; intros name s st st'; [done|].
  cbn [emitSchema]. destruct (isVisited name st); [intros [= <-]; apply R_refl|].
  destruct (resolveRef (doc g) s) as [resolved|]; [|done].
  destruct (0 <? length (Enum resolved)).
  { intros [= <-]. eapply R_trans; [apply R_mark|apply emitEnum_preserves]. }
  destruct (isMessageShaped resolved).
  - intros Hm. apply (emitMessageWith_preserves _ _ IH) in Hm.
    eapply R_trans; [apply R_mark|exact Hm].
  - destruct (scalarType (doc g) (Some resolved)) as [t| | |]; [|done..].
    rewrite bind_Ok. intros [= <-].
    eapply R_trans; [apply R_mark|]. repeat apply R_write_r. apply R_refl.
Qed.

End Preserved.

(** ** The schema emitter *)

Lemma emitSchema_appends order (g : genContext) (fuel : nat) (name : string)
    (s : option Schema) (st st' : genState) :
  emitSchema order g fuel name s st = Ok st' → extends st st'.
Proof.
  apply (emitSchema_preserves extends).
  - apply extends_refl.
  - apply extends_trans.
  - apply extends_write.
  - apply extends_nextTick.
  - apply extends_markVisited.
Qed.

(** X7. The emitter only appends: when a call returns, the builder holds
    the text it held before the call followed by new text, whatever the
    schema and the map iteration order. *)
Theorem emitSchema_append_only order (g : genContext) (fuel : nat) (name : string)
    (s : option Schema) (st st' : genState) :
  emitSchema order g fuel name s st = Ok st' →
  ∃ text, out st' = out st +:+ text.
Proof. apply emitSchema_appends. Qed.

Lemma emitSchema_append_only_witness :
  ∃ text,
    out (stateOf (emitSchema orderAsListed (context twoMaps true) 3 "Sizes"
                    (index twoMaps "Sizes") (write "// head" start)))
    = out (write "// head" start) +:+ text.
Proof.
  apply (emitSchema_append_only orderAsListed (context twoMaps true) 3 "Sizes"
           (index twoMaps "Sizes") (write "// head" start)).
  vm_compute. reflexivity.
Defined.

Lemma visited_preserved order (g : genContext) (fuel : nat) (name : string)
    (s : option Schema) (st st' : genState) :
  emitSchema order g fuel name s st = Ok st' → visited st ⊆ visited st'.
Proof.
  apply (emitSchema_preserves (λ a b, visited a ⊆ visited b)).
  - done.
  - intros a b c Hab Hbc. by etrans.
  - done.
  - done.
  - intros n a. cbn. set_solver.
Qed.

Lemma emitEnum_visited (name : string) (s : Schema) (st : genState) :
  visited st ⊆ visited (emitEnum name s st).
Proof.
  apply (emitEnum_preserves (λ a b, visited a ⊆ visited b)); [done| |done].
  intros a b c Hab Hbc. by etrans.
Qed.

Lemma emitMessageWith_visited order (g : genContext) (fuel : nat) (name : string)
    (s : Schema) (st st' : genState) :
  emitMessageWith order g (emitSchema order g fuel) (fieldType fuel (doc g)) name s st = Ok st' →
  visited st ⊆ visited st'.
Proof.
  apply (emitMessageWith_preserves (λ a b, visited a ⊆ visited b)); try done.
  - intros a b c Hab Hbc. by etrans.
  - intros n s0 a b. apply visited_preserved.
Qed.

Lemma emitSchema_marks order (g : genContext) (fuel : nat) (name : string)
    (s : option Schema) (st st' : genState) :
  emitSchema order g fuel name s st = Ok st' → name ∈ visited st'.
Proof.
  destruct fuel as [|fuel]; [done|]. cbn [emitSchema].
  destruct (isVisited name st) eqn:Ev.
  { intros [= <-]. by apply bool_decide_eq_true in Ev. }
  assert (name ∈ visited (markVisited name st)) as Hin by (cbn; set_solver).
  destruct (resolveRef (doc g) s) as [resolved|]; [|done].
  destruct (0 <? length (Enum resolved)).
  { intros [= <-]. by apply emitEnum_visited. }
  destruct (isMessageShaped resolved).
  - intros Hm. apply emitMessageWith_visited in Hm. by apply Hm.
  - destruct (scalarType (doc g) (Some resolved)) as [t| | |]; [|done..].
    rewrite bind_Ok. by intros [= <-].
Qed.

(** X8. The visited set only grows, and a call that returns leaves its
    name in it. *)
Theorem emitSchema_visited order (g : genContext) (fuel : nat) (name : string)
    (s : option Schema) (st st' : genState) :
  emitSchema order g fuel name s st = Ok st' →
  visited st ⊆ visited st' ∧ name ∈ visited st'.
Proof.
  intros H. split; [by eapply visited_preserved|by eapply emitSchema_marks].
Qed.

Lemma emitSchema_visited_witness :
  visited start
  ⊆ visited (stateOf (emitSchema orderAsListed (context ∅ true) 3 "Pet" (Some petWithTags) start))
  ∧ "Pet" ∈ visited (stateOf (emitSchema orderAsListed (context ∅ true) 3 "Pet"
                                 (Some petWithTags) start)).
Proof.
  apply (emitSchema_visited orderAsListed (context ∅ true) 3 "Pet" (Some petWithTags) start).
  vm_compute. reflexivity.
Defined.

(** X9. A name is emitted at most once in a run: once a call for a name
    has returned, every later call for that name, with whatever schema,
    returns at once and leaves the state as it is. *)
Theorem emitSchema_once order (g : genContext) (fuel fuel1 fuel2 : nat) (name other : string)
    (s s1 s2 : option Schema) (st st1 st2 : genState) :
  emitSchema order g fuel name s st = Ok st1 →
  emitSchema order g fuel1 other s1 st1 = Ok st2 →
  emitSchema order g (S fuel2) name s2 st2 = Ok st2.
Proof.
  intros H1 H2. apply emitSchema_marks in H1. apply visited_preserved in H2.
  cbn [emitSchema]. unfold isVisited. rewrite bool_decide_eq_true_2; [done|].
  by apply H2.
Qed.

Lemma emitSchema_once_witness :
  let g := context ∅ true in
  let st1 := stateOf (emitSchema orderAsListed g 3 "Pet" (Some petWithTags) start) in
  let st2 := stateOf (emitSchema orderAsListed g 3 "Tags" (Some mapWithOneOf) st1) in
  emitSchema orderAsListed g 1 "Pet" (Some mapWithOneOf) st2 = Ok st2.
Proof.
  intros g st1 st2.
  apply (emitSchema_once orderAsListed g 3 3 0 "Pet" "Tags"
           (Some petWithTags) (Some mapWithOneOf) (Some mapWithOneOf) start st1 st2).
  - vm_compute. reflexivity.
  - vm_compute. reflexivity.
Defined.





(** ** Relating two runs of the emitter *)

Section Related.

(** A relation between the results of two runs that returning, failing
    on a nil pointer and sequencing respect. *)
Variable rel : ∀ A, result A → result A → Prop.
Hypothesis rel_ok : ∀ A (a : A), rel A (Ok a) (Ok a).
Hypothesis rel_panic : ∀ A, rel A Panic Panic.
Hypothesis rel_bind : ∀ A B (m m' : result A) (k k' : A → result B),
  rel A m m' → (∀ a, rel B (k a) (k' a)) → rel B (m ≫= k) (m' ≫= k').

Lemma forEach_related {A S} (f f' : S → A → result S) (l : list A) (acc : S) :
  (∀ a x, rel S (f a x) (f' a x)) → rel S (forEach f l acc) (forEach f' l acc).
Proof.
  intros Hf. revert acc. induction l as [|x l IH]; intros acc; cbn [forEach].
  - apply rel_ok.
  - apply rel_bind; [apply Hf|apply IH].
Qed.

Lemma fieldType_related_step (doc : Registry) (f1 f2 : nat) :
  (∀ n s, rel _ (fieldType f1 doc n s) (fieldType f2 doc n s)) →
  ∀ n s, rel _ (fieldType (S f1) doc n s) (fieldType (S f2) doc n s).
Proof.
  intros IH n s. cbn [fieldType].
  destruct (resolveRef doc s) as [r|]; [|apply rel_panic].
  repeat match goal with
         | |- rel _ (Ok _) (Ok _) => apply rel_ok
         | |- rel _ (if ?b then _ else _) (if ?b then _ else _) => destruct b
         | |- rel _ (match ?o with Some _ => _ | None => _ end)
                    (match ?o with Some _ => _ | None => _ end) => destruct o
         | |- rel _ (_ ≫= _) (_ ≫= _) => apply rel_bind; [apply IH|intros [? [[? ?]|]]]
         end.
Qed.

Lemma scalarType_related (doc : Registry) (s : option Schema) :
  rel _ (scalarType doc s) (scalarType doc s).
Proof.
  unfold scalarType. destruct (resolveRef doc s) as [r|]; [|apply rel_panic].
  repeat match goal with
         | |- rel _ (Ok _) (Ok _) => apply rel_ok
         | |- rel _ (if ?b then _ else _) (if ?b then _ else _) => destruct b
         end.
Qed.

Variable order : nat → list string → list string.
Variable g : genContext.

Lemma mergeAllOf_related (s : Schema) (st : genState) :
  rel _ (mergeAllOf order g s st) (mergeAllOf order g s st).
Proof.
  unfold mergeAllOf. apply rel_bind.
  - apply forEach_related. intros [m st'] part.
    destruct (resolveRef (doc g) part); [apply rel_ok|apply rel_panic].
  - intros [m st']. destruct (copyInto _ _ _ _). apply rel_ok.
Qed.

Section Body.

Variables rec1 rec2 : string → option Schema → genState → result genState.
Variables ft1 ft2 : string → option Schema → result (string * nestedReq).
Hypothesis Hrec : ∀ n s st, rel _ (rec1 n s st) (rec2 n s st).
Hypothesis Hft : ∀ n s, rel _ (ft1 n s) (ft2 n s).

Lemma emitProperty_related msgName merged bs prop :
  rel _ (emitProperty g ft1 msgName merged bs prop) (emitProperty g ft2 msgName merged bs prop).
Proof.
  unfold emitProperty. apply rel_bind; [apply Hft|]. intros [pt nested].
  destruct (flatten _ _ _ _ _). destruct (index _ _); [apply rel_ok|apply rel_panic].
Qed.

Lemma emitMapEntries_related s merged bs :
  rel _ (emitMapEntries rec1 ft1 s merged bs) (emitMapEntries rec2 ft2 s merged bs).
Proof.
  unfold emitMapEntries. destruct (AddlProps s); [|apply rel_ok].
  destruct (size _ =? 0); [|apply rel_ok].
  apply rel_bind; [apply Hft|]. intros [vt nested].
  apply rel_bind; [|intros; apply rel_ok].
  destruct nested as [[n schema]|]; [apply Hrec|apply rel_ok].
Qed.

Lemma emitBranch_related msgName prefix acc branch :
  rel _ (emitBranch ft1 msgName prefix acc branch) (emitBranch ft2 msgName prefix acc branch).
Proof.
  unfold emitBranch. apply rel_bind; [apply Hft|]. intros [pt nested].
  destruct (flatten _ _ _ _ _). apply rel_ok.
Qed.

Lemma emitOneOf_related msgName s bs :
  rel _ (emitOneOf ft1 msgName s bs) (emitOneOf ft2 msgName s bs).
Proof.
  unfold emitOneOf. destruct (0 <? _); [|apply rel_ok].
  apply rel_bind; [|intros [idx b]; apply rel_ok].
  apply forEach_related. intros a x. apply emitBranch_related.
Qed.

Lemma emitAnyOf_related msgName s bs :
  rel _ (emitAnyOf g ft1 msgName s bs) (emitAnyOf g ft2 msgName s bs).
Proof.
  unfold emitAnyOf. destruct (elems (AnyOf s)) as [|first rest]; [apply rel_ok|].
  destruct (String.eqb _ _).
  - apply rel_bind; [apply Hft|]. intros [pt nested].
    destruct (flatten _ _ _ _ _). apply rel_ok.
  - apply rel_bind; [|intros [idx b]; apply rel_ok].
    apply forEach_related. intros a x. apply emitBranch_related.
Qed.

Lemma emitMessageWith_related name s st :
  rel _ (emitMessageWith order g rec1 ft1 name s st)
        (emitMessageWith order g rec2 ft2 name s st).
Proof.
  unfold emitMessageWith, emitBody, drain. apply rel_bind.
  - apply rel_bind; [apply mergeAllOf_related|]. intros [merged st1].
    destruct (propNames _ _ _ _) as [names st2].
    apply rel_bind; [apply forEach_related; intros; apply emitProperty_related|].
    intros bs1. apply rel_bind; [apply emitMapEntries_related|].
    intros bs2. apply rel_bind; [apply emitOneOf_related|].
    intros bs3. apply emitAnyOf_related.
  - intros bs. apply forEach_related. intros a p. apply Hrec.
Qed.

End Body.

Lemma emitSchema_related_step (f1 f2 : nat) :
  (∀ n s st, rel _ (emitSchema order g f1 n s st) (emitSchema order g f2 n s st)) →
  (∀ n s, rel _ (fieldType f1 (doc g) n s) (fieldType f2 (doc g) n s)) →
  ∀ n s st, rel _ (emitSchema order g (S f1) n s st) (emitSchema order g (S f2) n s st).
Proof.
  intros IH IHft n s st. cbn [emitSchema].
  destruct (isVisited n st); [apply rel_ok|].
  destruct (resolveRef (doc g) s) as [resolved|]; [|apply rel_panic].
  destruct (0 <? length (Enum resolved)); [apply rel_ok|].
  destruct (isMessageShaped resolved).
  - by apply emitMessageWith_related.
  - apply rel_bind; [apply scalarType_related|]. intros t. apply rel_ok.
Qed.

End Related.

(** ** The recursion bound, and the fatal exit *)







Lemma notFatal_bind {A B} (m m' : result A) (k k' : A → result B) :
  notFatal m m' → (∀ a, notFatal (k a) (k' a)) → notFatal (m ≫= k) (m' ≫= k').
Proof.
  unfold notFatal. intros [Hm Hm'] Hk. split.
  - destruct m as [a| | |]; cbn; [apply Hk|done..].
  - destruct m' as [a| | |]; cbn; [apply Hk|done..].
Qed.

Lemma notFatal_ok {A} (a : A) : notFatal (Ok a) (Ok a).
Proof. done. Qed.

Lemma notFatal_panic {A} : notFatal (@Panic A) Panic.
Proof. done. Qed.

Lemma fieldType_notFatal (doc : Registry) (fuel : nat) (name : string) (s : option Schema) :
  fieldType fuel doc name s ≠ Fatal.
Proof.
  revert name s. induction fuel as [|fuel IH]; intros name s; [done|].
  apply (fieldType_related_step (@notFatal) (@notFatal_ok) (@notFatal_panic) (@notFatal_bind)
           doc fuel fuel (λ n s', conj (IH n s') (IH n s'))).
Qed.

Lemma emitSchema_notFatal order (g : genContext) (fuel : nat) (name : string)
    (s : option Schema) (st : genState) :
  emitSchema order g fuel name s st ≠ Fatal.
Proof.
  revert name s st. induction fuel as [|fuel IH]; intros name s st; [done|].
  apply (emitSchema_related_step (@notFatal) (@notFatal_ok) (@notFatal_panic) (@notFatal_bind)
           order g fuel fuel (λ n s' st', conj (IH n s' st') (IH n s' st'))).
  intros n s'. split; apply fieldType_notFatal.
Qed.

(** X12. A run ends in the fatal exit exactly when the registry has no
    entry; no schema, however malformed, makes it fatal. *)
Theorem generate_fatal_iff_empty order (g : genContext) (fuel : nat) (pkg goPkg : string) :
  generate order g fuel pkg goPkg = Fatal ↔ doc g = ∅.
Proof.
  unfold generate. destruct (size (doc g) =? 0) eqn:E.
  - apply Nat.eqb_eq, map_size_empty_iff in E. done.
  - apply Nat.eqb_neq in E. rewrite map_size_empty_iff in E. split; [|done].
    destruct (schemaNames order g _) as [names st].
    pose proof (forEach_related (@notFatal) (@notFatal_ok) (@notFatal_bind)
                  (λ st' name, emitSchema order g fuel name (index (doc g) name) st')
                  (λ st' name, emitSchema order g fuel name (index (doc g) name) st')
                  names st
                  (λ a x, conj (emitSchema_notFatal order g fuel x _ a)
                               (emitSchema_notFatal order g fuel x _ a))) as [Hloop _].
    by destruct (forEach _ names st).
Qed.

(** X13. The text of a run that returns starts with the three header
    lines and the blank line. *)
Theorem generate_starts_with_header order (g : genContext) (fuel : nat)
    (pkg goPkg text : string) :
  generate order g fuel pkg goPkg = Ok text →
  ∃ blocks, text = header pkg goPkg +:+ blocks.
Proof.
  unfold generate. destruct (size (doc g) =? 0); [done|].
  unfold schemaNames, rangeKeys. cbv beta iota.
  destruct (forEach _ _ _) as [st| | |] eqn:E; [|done..]. rewrite bind_Ok. intros [= <-].
  apply (forEach_invariant extends) in E.
  - destruct E as [blocks Hb]. exists blocks. by rewrite Hb.
  - apply extends_refl.
  - apply extends_trans.
  - intros a x a'. apply emitSchema_appends.
Qed.

Lemma generate_starts_with_header_witness :
  ∃ blocks,
    match generate orderAsListed (context twoScalars true) 2 "api.v1" "example.com/api;v1" with
    | Ok text => text
    | _ => EmptyString
    end = header "api.v1" "example.com/api;v1" +:+ blocks.
Proof.
  apply (generate_starts_with_header orderAsListed (context twoScalars true) 2
           "api.v1" "example.com/api;v1").
  vm_compute. reflexivity.
Defined.

(** ** The type mapper *)

Lemma resolveRef_no_ref (doc : Registry) (s : Schema) :
  Ref s = EmptyString → resolveRef doc (Some s) = Some s.
Proof. intros H. by rewrite resolveRef_unfold, H. Qed.

Lemma spineDepth_pos (s : Schema) : 0 < spineDepth s.
Proof. destruct s. cbn. lia. Qed.

(** X14. On a schema that carries no [$ref] along its [items] and
    [additionalProperties] the type mapper returns a type, with any
    recursion bound that is at least the nesting depth: it neither runs
    on nor fails. *)
Theorem fieldType_terminates (doc : Registry) (fuel : nat) (name : string) (s : Schema) :
  refFreeSpine s = true → spineDepth s ≤ fuel →
  ∃ r, fieldType fuel doc name (Some s) = Ok r.
Proof.
  revert name s. induction fuel as [|fuel IH]; intros name s Hfree Hdepth.
  { pose proof (spineDepth_pos s). lia. }
  assert (Ref s = EmptyString
          ∧ (∀ i, Items s = Some i → refFreeSpine i = true ∧ spineDepth i ≤ fuel)
          ∧ (∀ a, AddlProps s = Some a → refFreeSpine a = true ∧ spineDepth a ≤ fuel))
    as (Href & Hitems & Haddl).
  { destruct s as [ref ty fmt en props items one all any req nul addl descr].
    cbn in Hfree, Hdepth |- *.
    apply andb_true_iff in Hfree as [[Href Hi]%andb_true_iff Ha].
    apply String.eqb_eq in Href. split; [done|]. split.
    - intros i [= ->]. split; [done|]. lia.
    - intros a [= ->]. split; [done|]. lia. }
  cbn [fieldType]. rewrite (resolveRef_no_ref _ _ Href).
  repeat match goal with
         | |- ∃ r, Ok _ = Ok r => eexists; reflexivity
         | |- ∃ r, (if ?b then _ else _) = Ok r => destruct b
         end.
  - destruct (Items s) as [i|] eqn:Ei; [|eexists; reflexivity].
    destruct (Hitems i eq_refl) as [Hf Hd].
    destruct (IH (name +:+ "_item") i Hf Hd) as [[et [[n sch]|]] ->]; eexists; reflexivity.
  - destruct (AddlProps s) as [a|] eqn:Ea; [|eexists; reflexivity].
    destruct (size (propsOf s) =? 0); [|eexists; reflexivity].
    destruct (Haddl a eq_refl) as [Hf Hd].
    destruct (IH (name +:+ "_value") a Hf Hd) as [[vt [[n sch]|]] ->]; eexists; reflexivity.
Qed.

Lemma fieldType_terminates_witness :
  ∃ r, fieldType 4 chain "grid" (Some matrixOfMaps) = Ok r.
Proof.
  apply (fieldType_terminates chain 4 "grid" matrixOfMaps).
  - reflexivity.
  - vm_compute. lia.
Defined.

Lemma isMessageShaped_composition (s : Schema) :
  bool_decide (OneOf s ≠ None) || bool_decide (AllOf s ≠ None)
  || bool_decide (AnyOf s ≠ None) = true →
  isMessageShaped s = true.
Proof.
  unfold isMessageShaped.
  destruct (bool_decide (OneOf s ≠ None)), (bool_decide (AllOf s ≠ None)),
    (bool_decide (AnyOf s ≠ None)); try done; intros _; by rewrite ?orb_true_r.
Qed.

Lemma fieldType_shape (doc : Registry) (fuel : nat) (name : string) (s : option Schema)
    (t : string) (req : nestedReq) :
  fieldType fuel doc name s = Ok (t, req) →
  match req with
  | Some (n, sch) =>
      (t = n ∨ t = "repeated " +:+ n ∨ t = "map<string," +:+ n +:+ ">")
      ∧ normalizeMessage n = n
      ∧ (0 <? length (Enum sch)) || isMessageShaped sch = true
  | None => simpleType t
  end.
Proof.
  assert (∀ nm, normalizeMessage (normalizeMessage nm) = normalizeMessage nm) as Hidem.
  { intros nm. apply normalizeMessage_fixed;
      [apply normalizeMessage_separatorFree|apply normalizeMessage_capitalised]. }
  revert name s t req. induction fuel as [|fuel IH]; intros name s t req; [done|].
  cbn [fieldType]. destruct (resolveRef doc s) as [r|]; [|done].
  destruct (0 <? length (Enum r)) eqn:Een.
  { intros [= <- <-]. split; [by left|]. split; [apply Hidem|by rewrite Een]. }
  destruct (String.eqb (Type_ r) "string").
  { destruct (_ || _); intros [= <- <-]; by constructor. }
  destruct (String.eqb (Type_ r) "integer").
  { destruct (String.eqb _ _); intros [= <- <-]; by constructor. }
  destruct (String.eqb (Type_ r) "number").
  { destruct (String.eqb _ _); intros [= <- <-]; by constructor. }
  destruct (String.eqb (Type_ r) "boolean").
  { intros [= <- <-]; by constructor. }
  destruct (String.eqb (Type_ r) "array").
  { destruct (Items r) as [i|].
    - destruct (fieldType fuel doc _ (Some i)) as [[et nested]| | |] eqn:Ei; [|done..].
      rewrite bind_Ok. cbv beta iota. apply IH in Ei.
      destruct nested as [[n sch]|]; intros [= <- <-].
      + destruct Ei as (_ & Hn & Hs). split; [by right; left|done].
      + by constructor 2.
    - intros [= <- <-]. constructor 2. by constructor. }
  destruct (String.eqb (Type_ r) "object") eqn:Eobj.
  { assert (isMessageShaped r = true) as Hmsg by (unfold isMessageShaped; by rewrite Eobj).
    assert (∀ t' req', Ok (normalizeMessage name, Some (normalizeMessage name, r)) = Ok (t', req') →
            match req' with
            | Some (n, sch) =>
                (t' = n ∨ t' = "repeated " +:+ n ∨ t' = "map<string," +:+ n +:+ ">")
                ∧ normalizeMessage n = n
                ∧ (0 <? length (Enum sch)) || isMessageShaped sch = true
            | None => simpleType t'
            end) as Hobj.
    { intros t' req' [= <- <-]. split; [by left|]. split; [apply Hidem|].
      by rewrite Hmsg, orb_true_r. }
    destruct (AddlProps r) as [a|]; [|apply Hobj].
    destruct (size (propsOf r) =? 0); [|apply Hobj].
    destruct (fieldType fuel doc _ (Some a)) as [[vt nested]| | |] eqn:Ea; [|done..].
    rewrite bind_Ok. cbv beta iota. apply IH in Ea.
    destruct nested as [[n sch]|]; intros [= <- <-].
    - destruct Ea as (_ & Hn & Hs). split; [by right; right|done].
    - by constructor 3. }
  destruct (_ || _) eqn:Ecomp.
  - intros [= <- <-]. split; [by left|]. split; [apply Hidem|].
    by rewrite (isMessageShaped_composition _ Ecomp), orb_true_r.
  - intros [= <- <-]. by constructor.
Qed.

(** X15. A synthesis request of the type mapper names a normalized type
    (a fixed point of the type-name normalizer), the returned type is
    that name, bare or under one [repeated] or [map] wrapper, and the
    requested schema has enumeration literals or is message-shaped. *)
Theorem fieldType_request_shape (doc : Registry) (fuel : nat) (name : string)
    (s : option Schema) (t n : string) (sch : Schema) :
  asciiText name = true →
  fieldType fuel doc name s = Ok (t, Some (n, sch)) →
  (t = n ∨ t = "repeated " +:+ n ∨ t = "map<string," +:+ n +:+ ">")
  ∧ normalizeMessage n = n
  ∧ (0 <? length (Enum sch)) || isMessageShaped sch = true.
Proof. intros _ H. exact (fieldType_shape _ _ _ _ _ _ H). Qed.

Lemma fieldType_request_shape_witness :
  let items := object {[ "label" := Some (scalar "string" "") ]} in
  ("repeated TagsItem" = "TagsItem" ∨ "repeated TagsItem" = "repeated " +:+ "TagsItem"
   ∨ "repeated TagsItem" = "map<string," +:+ "TagsItem" +:+ ">")
  ∧ normalizeMessage "TagsItem" = "TagsItem"
  ∧ (0 <? length (Enum items)) || isMessageShaped items = true.
Proof.
  intros items.
  apply (fieldType_request_shape ∅ 3 "tags" (Some (arrayOf items)) "repeated TagsItem"
           "TagsItem" items).
  - reflexivity.
  - vm_compute. reflexivity.
Defined.

(** X16. Without a synthesis request the type the mapper returns is one
    of the seven scalar types under any number of [repeated] and [map]
    wrappers; nested arrays give [repeated repeated ...]. *)
Theorem fieldType_simple (doc : Registry) (fuel : nat) (name : string)
    (s : option Schema) (t : string) :
  fieldType fuel doc name s = Ok (t, None) → simpleType t.
Proof. intros H. exact (fieldType_shape _ _ _ _ _ _ H). Qed.

Lemma fieldType_simple_witness :
  fieldType 4 chain "grid" (Some matrixOfMaps)
  = Ok ("repeated repeated map<string,double>", None)
  ∧ simpleType "repeated repeated map<string,double>".
Proof.
  split; [vm_compute; reflexivity|].
  apply (fieldType_simple chain 4 "grid" (Some matrixOfMaps)). vm_compute. reflexivity.
Defined.

(** ** The two scalar mappers, null entries and anyOf in repeat mode *)

(** X17. On a scalar schema the two mappers agree, except for a string
    with format [byte] or [binary]: as a field it is [bytes], as the
    value of a top-level wrapper message it is [string]. *)
Theorem scalar_mappers_agree (doc : Registry) (fuel : nat) (name : string) (s : Schema) :
  Ref s = EmptyString → Enum s = [] →
  Type_ s ∈ ["string"; "integer"; "number"; "boolean"] →
  ∃ t t',
    fieldType (S fuel) doc name (Some s) = Ok (t, None)
    ∧ scalarType doc (Some s) = Ok t'
    ∧ isScalar t = true ∧ isScalar t' = true
    ∧ (t = t'
       ∨ (t = "bytes" ∧ t' = "string" ∧ Type_ s = "string"
          ∧ (Format s = "byte" ∨ Format s = "binary"))).
Proof.
  intros Href Henum Htype. cbn [fieldType]. unfold scalarType.
  rewrite (resolveRef_no_ref _ _ Href), Henum. cbn [length Nat.ltb Nat.leb].
  repeat (apply elem_of_cons in Htype as [Hty|Htype]); [..|by apply elem_of_nil in Htype];
    rewrite Hty; cbn [String.eqb Ascii.eqb Bool.eqb andb].
  - destruct (String.eqb (Format s) "byte") eqn:E1.
    { apply String.eqb_eq in E1. eexists _, _. repeat (split; [reflexivity|]). right; auto. }
    destruct (String.eqb (Format s) "binary") eqn:E2.
    { apply String.eqb_eq in E2. eexists _, _. repeat (split; [reflexivity|]). right; auto. }
    eexists _, _. repeat (split; [reflexivity|]). by left.
  - destruct (String.eqb (Format s) "int32");
      eexists _, _; repeat (split; [reflexivity|]); by left.
  - destruct (String.eqb (Format s) "float");
      eexists _, _; repeat (split; [reflexivity|]); by left.
  - eexists _, _. repeat (split; [reflexivity|]). by left.
Qed.

Lemma scalar_mappers_agree_witness :
  ∃ t t',
    fieldType 1 ∅ "photo" (Some (scalar "string" "binary")) = Ok (t, None)
    ∧ scalarType ∅ (Some (scalar "string" "binary")) = Ok t'
    ∧ isScalar t = true ∧ isScalar t' = true
    ∧ (t = t'
       ∨ (t = "bytes" ∧ t' = "string" ∧ Type_ (scalar "string" "binary") = "string"
          ∧ (Format (scalar "string" "binary") = "byte"
             ∨ Format (scalar "string" "binary") = "binary"))).
Proof.
  apply (scalar_mappers_agree ∅ 0 "photo" (scalar "string" "binary")).
  - reflexivity.
  - reflexivity.
  - cbn. set_solver.
Defined.

(** X18. A reference to a name the registry maps to null is a nil-pointer
    panic, in both type mappers and in the emitter. *)
Theorem null_target_panics order (g : genContext) (fuel : nat) (name : string)
    (s : Schema) (st : genState) :
  Ref s ≠ EmptyString →
  doc g !! lastSegment (Ref s) = Some None →
  fieldType (S fuel) (doc g) name (Some s) = Panic
  ∧ scalarType (doc g) (Some s) = Panic
  ∧ (name ∉ visited st → emitSchema order g (S fuel) name (Some s) st = Panic).
Proof.
  intros Href Hnull.
  assert (resolveRef (doc g) (Some s) = None) as Hres.
  { rewrite resolveRef_unfold, Hnull. by destruct (String.eqb_spec (Ref s) ""). }
  split; [|split].
  - cbn [fieldType]. by rewrite Hres.
  - unfold scalarType. by rewrite Hres.
  - intros Hvis. cbn [emitSchema]. unfold isVisited.
    rewrite bool_decide_eq_false_2 by done. by rewrite Hres.
Qed.

Lemma null_target_panics_witness :
  generate orderAsListed (context withNull true) 5 "api.v1" "example.com/api;v1" = Panic
  ∧ fieldType 1 withNull "g" (Some (Reference "#/components/schemas/Gone")) = Panic.
Proof.
  split; [vm_compute; reflexivity|].
  apply (null_target_panics orderAsListed (context withNull true) 0 "g"
           (Reference "#/components/schemas/Gone") start).
  - discriminate.
  - vm_compute. reflexivity.
Defined.

Lemma isMessageShaped_withAnyOf (s : Schema) (branches : list (option Schema)) :
  isMessageShaped (withAnyOf s (Some branches)) = true.
Proof.
  unfold isMessageShaped. cbn [AnyOf withAnyOf].
  rewrite (bool_decide_eq_true_2 (Some branches ≠ None)) by done.
  by rewrite orb_true_r.
Qed.

(** X19. In repeat mode only the first anyOf branch counts: replacing the
    other branches by nothing changes neither the text nor the state the
    emitter returns. *)
Theorem anyOf_repeat_ignores_rest order (g : genContext) (fuel : nat) (name : string)
    (s : Schema) (first : option Schema) (rest : list (option Schema)) (st : genState) :
  anyOfMode g = "repeat" →
  emitSchema order g fuel name (Some (withAnyOf s (Some (first :: rest)))) st
  = emitSchema order g fuel name (Some (withAnyOf s (Some [first]))) st.
Proof.
  intros Hmode. destruct fuel as [|fuel]; [done|]. cbn [emitSchema].
  destruct (isVisited name st); [done|].
  rewrite !resolveRef_unfold. cbn [Ref withAnyOf].
  destruct (String.eqb (Ref s) "");
    [|destruct (doc g !! lastSegment (Ref s)) as [tgt|]; [done|]];
    cbn [Enum withAnyOf]; (destruct (0 <? length (Enum s)); [done|]);
    rewrite !isMessageShaped_withAnyOf;
    unfold emitMessageWith, emitBody, emitAnyOf; cbn [AnyOf withAnyOf elems default];
    rewrite Hmode; reflexivity.
Qed.

Lemma anyOf_repeat_ignores_rest_witness :
  let g := mkContext ∅ true "repeat" true in
  emitSchema orderAsListed g 3 "Pick"
    (Some (withAnyOf emptySchema
             (Some [Some (scalar "integer" "int32"); Some petWithTags; Some statusEnum]))) start
  = emitSchema orderAsListed g 3 "Pick"
      (Some (withAnyOf emptySchema (Some [Some (scalar "integer" "int32")]))) start.
Proof.
  intros g.
  apply (anyOf_repeat_ignores_rest orderAsListed g 3 "Pick" emptySchema
           (Some (scalar "integer" "int32")) [Some petWithTags; Some statusEnum] start).
  reflexivity.
Defined.



(** ** The queue of deferred schemas, and the field counter *)

Lemma normalizeMessage_flat (a b : string) :
  normalizeMessage (normalizeMessage a +:+ "_" +:+ normalizeMessage b)
  = normalizeMessage a +:+ normalizeMessage b.
Proof.
  pose proof (normalizeMessage_separatorFree a) as Ha.
  pose proof (normalizeMessage_separatorFree b) as Hb.
  pose proof (normalizeMessage_capitalised a) as Ca.
  pose proof (normalizeMessage_capitalised b) as Cb.
  set (A := normalizeMessage a) in *. set (B := normalizeMessage b) in *.
  unfold normalizeMessage at 1.
  assert (nonAlnumReplace (A +:+ "_" +:+ B) = A +:+ "_" +:+ B) as ->.
  { apply map_id_on. rewrite !forallb_append. apply andb_true_iff. split; [|apply andb_true_iff; split].
    - revert Ha. apply forallb_impl. intros c. by destruct c as [[] [] [] [] [] [] [] []].
    - done.
    - revert Hb. apply forallb_impl. intros c. by destruct c as [[] [] [] [] [] [] [] []]. }
  unfold upperCamel.
  destruct (String.eqb_spec (A +:+ "_" +:+ B) "") as [E|_].
  { destruct A; discriminate E. }
  change (A +:+ "_" +:+ B) with (A +:+ String "_" B).
  rewrite Split_app_sep, (Split_separatorFree _ Ha), (Split_separatorFree _ Hb).
  cbn. by rewrite append_nil_r, !upperCamelPart_fixed.
Qed.

Section Queue.

Variable g : genContext.
Variable rec : string → option Schema → genState → result genState.
Variable ft : string → option Schema → result (string * nestedReq).
Hypothesis Hft : ∀ n s t m sch, ft n s = Ok (t, Some (m, sch)) → normalizeMessage m = m.
Variable name : string.

Lemma flatten_queue pt (nested : nestedReq) queue st :
  match nested with Some (m, _) => normalizeMessage m = m | None => True end →
  Forall (flatNameOf (normalizeMessage name)) queue →
  Forall (flatNameOf (normalizeMessage name))
         (flatten (normalizeMessage name) pt nested queue st).2.
Proof.
  intros Hn Hq. unfold flatten. destruct nested as [[m sch]|]; [|done]. cbn [snd].
  destruct (isVisited _ st); [done|]. apply Forall_app. split; [done|].
  constructor; [|done]. exists m. split; [|done]. cbn [fst].
  rewrite <- Hn. apply normalizeMessage_flat.
Qed.

Lemma emitProperty_queue merged bs prop bs' :
  emitProperty g ft (normalizeMessage name) merged bs prop = Ok bs' →
  Forall (flatNameOf (normalizeMessage name)) (toEmit bs) →
  Forall (flatNameOf (normalizeMessage name)) (toEmit bs').
Proof.
  unfold emitProperty.
  destruct (ft prop _) as [[pt nested]| | |] eqn:E; [|done..]. rewrite bind_Ok. cbv beta iota.
  intros H Hq.
  pose proof (flatten_queue pt nested (toEmit bs) (gen bs)) as Hfl.
  destruct (flatten _ pt nested _ _) as [pt' q].
  destruct (index _ prop); [|done]. injection H as <-. cbn [toEmit]. apply Hfl; [|done].
  destruct nested as [[m sch]|]; [by eapply Hft|done].
Qed.

Lemma emitBranch_queue prefix acc branch acc' :
  emitBranch ft (normalizeMessage name) prefix acc branch = Ok acc' →
  Forall (flatNameOf (normalizeMessage name)) (toEmit acc.2) →
  Forall (flatNameOf (normalizeMessage name)) (toEmit acc'.2).
Proof.
  unfold emitBranch.
  destruct (ft _ branch) as [[pt nested]| | |] eqn:E; [|done..]. rewrite bind_Ok. cbv beta iota.
  intros H Hq.
  pose proof (flatten_queue pt nested (toEmit acc.2) (gen acc.2)) as Hfl.
  destruct (flatten _ pt nested _ _) as [pt' q].
  injection H as <-. cbn [toEmit snd]. apply Hfl; [|done].
  destruct nested as [[m sch]|]; [by eapply Hft|done].
Qed.

Lemma forEach_queue {A S} (Q : S → Prop) (body : S → A → result S) (l : list A) (acc acc' : S) :
  (∀ a x a', body a x = Ok a' → Q a → Q a') →
  forEach body l acc = Ok acc' → Q acc → Q acc'.
Proof.
  intros Hbody. revert acc. induction l as [|x l IH]; intros acc; cbn [forEach].
  - by intros [= <-].
  - destruct (body acc x) as [a| | |] eqn:E; [|done..]. rewrite bind_Ok.
    intros Hrest Hq. eapply IH; [exact Hrest|]. by eapply Hbody.
Qed.

Lemma emitBody_queue order s st bs :
  emitBody order g rec ft name s st = Ok bs →
  Forall (flatNameOf (normalizeMessage name)) (toEmit bs).
Proof.
  unfold emitBody.
  destruct (mergeAllOf order g s _) as [[merged st1]| | |]; [|done..].
  rewrite bind_Ok. cbv beta iota. destruct (propNames _ _ _ _) as [names st2].
  destruct (forEach (emitProperty _ _ _ _) names _) as [bs1| | |] eqn:E1; [|done..].
  rewrite bind_Ok.
  apply (forEach_queue (λ b, Forall (flatNameOf (normalizeMessage name)) (toEmit b))) in E1;
    [|intros a x a'; apply emitProperty_queue|done].
  destruct (emitMapEntries rec ft s merged bs1) as [bs2| | |] eqn:E2; [|done..].
  rewrite bind_Ok.
  assert (Forall (flatNameOf (normalizeMessage name)) (toEmit bs2)) as Q2.
  { revert E2. unfold emitMapEntries. destruct (AddlProps s); [|by intros [= <-]].
    destruct (size _ =? 0); [|by intros [= <-]].
    destruct (ft "value" _) as [[vt nested]| | |]; [|done..]. rewrite bind_Ok. cbv beta iota.
    destruct (match nested with Some _ => _ | None => _ end); [|done..].
    rewrite bind_Ok. by intros [= <-]. }
  destruct (emitOneOf ft _ s bs2) as [bs3| | |] eqn:E3; [|done..].
  rewrite bind_Ok.
  assert (Forall (flatNameOf (normalizeMessage name)) (toEmit bs3)) as Q3.
  { revert E3. unfold emitOneOf. destruct (0 <? _); [|by intros [= <-]].
    destruct (forEach _ _ _) as [[idx b]| | |] eqn:El; [|done..].
    rewrite bind_Ok. cbv beta iota. intros [= <-]. cbn [toEmit writeBody].
    apply (forEach_queue (λ a, Forall (flatNameOf (normalizeMessage name)) (toEmit a.2))) in El;
      [done|intros a x a'; apply emitBranch_queue|done]. }
  unfold emitAnyOf. destruct (elems (AnyOf s)) as [|first rest]; [by intros [= <-]|].
  destruct (String.eqb _ _).
  - destruct (ft "anyof_value" first) as [[pt nested]| | |] eqn:E; [|done..].
    rewrite bind_Ok. cbv beta iota.
    pose proof (flatten_queue pt nested (toEmit bs3) (gen bs3)) as Hfl.
    destruct (flatten _ pt nested _ _) as [pt' q]. intros [= <-]. cbn [toEmit].
    apply Hfl; [|done]. destruct nested as [[m sch]|]; [by eapply Hft|done].
  - destruct (forEach _ _ _) as [[idx b]| | |] eqn:El; [|done..].
    rewrite bind_Ok. cbv beta iota. intros [= <-]. cbn [toEmit writeBody].
    apply (forEach_queue (λ a, Forall (flatNameOf (normalizeMessage name)) (toEmit a.2))) in El;
      [done|intros a x a'; apply emitBranch_queue|done].
Qed.

End Queue.

(** X20. Every schema a message defers is queued under the normalized
    name of the message followed by a normalized local name: the name a
    field of a property, oneOf branch or anyOf branch refers to starts
    with the name of the message that declares the field. *)
Theorem deferred_names_prefixed order (g : genContext) (fuel : nat) (name : string)
    (s : Schema) (st : genState) (bs : bodyState) :
  asciiText name = true →
  (∀ k, k ∈ keys (propsOf s ∪ foldBranches (doc g) (elems (AllOf s)) ∅) → asciiText k = true) →
  emitBody order g (emitSchema order g fuel) (fieldType fuel (doc g)) name s st = Ok bs →
  Forall (flatNameOf (normalizeMessage name)) (toEmit bs).
Proof.
  intros _ _. apply emitBody_queue.
  intros n s' t m sch H. by destruct (fieldType_shape _ _ _ _ _ _ H) as (_ & Hm & _).
Qed.

Lemma deferred_names_prefixed_witness :
  (toEmit (match emitBody orderAsListed (context ∅ true)
                        (emitSchema orderAsListed (context ∅ true) 3)
                        (fieldType 3 ∅) "pet_store" petWithTags start with
           | Ok bs => bs
           | _ => mkBody 0 [] start
           end)).*1 = ["PetStoreTagsItem"]
  ∧ Forall (flatNameOf (normalizeMessage "pet_store"))
      (toEmit (match emitBody orderAsListed (context ∅ true)
                       (emitSchema orderAsListed (context ∅ true) 3)
                       (fieldType 3 ∅) "pet_store" petWithTags start with
               | Ok bs => bs
               | _ => mkBody 0 [] start
               end)).
Proof.
  split; [vm_compute; reflexivity|].
  apply (deferred_names_prefixed orderAsListed (context ∅ true) 3 "pet_store" petWithTags start).
  - reflexivity.
  - intros k Hk. vm_compute in Hk. apply list_elem_of_singleton in Hk. subst k. reflexivity.
  - vm_compute. reflexivity.
Defined.

(** X21. When the body of a message is written, the field counter stands
    at one plus the number of merged properties, oneOf branches and anyOf
    fields: each of them took one number, and the entries field of a map
    shape took none. *)
Theorem field_counter order (g : genContext) (fuel : nat) (name : string)
    (s : Schema) (st : genState) (bs : bodyState) :
  validOrder order →
  emitBody order g (emitSchema order g fuel) (fieldType fuel (doc g)) name s st = Ok bs →
  fieldNum bs = 1 + size (propsOf s ∪ foldBranches (doc g) (elems (AllOf s)) ∅)
                + length (elems (OneOf s)) + anyOfFields g s.
Proof.
  intros Hord H.
  by destruct (emitBody_step order g Hord _ _ (emitSchema_extends order g Hord fuel)
                 name s st bs H) as [_ Hn].
Qed.

Lemma field_counter_witness :
  fieldNum (match emitBody orderAsListed (context ∅ true)
                    (emitSchema orderAsListed (context ∅ true) 3)
                    (fieldType 3 ∅) "Account" account start with
            | Ok bs => bs
            | _ => mkBody 0 [] start
            end)
  = 1 + size (propsOf account ∪ foldBranches ∅ (elems (AllOf account)) ∅)
    + length (elems (OneOf account)) + anyOfFields (context ∅ true) account.
Proof.
  apply (field_counter orderAsListed (context ∅ true) 3 "Account" account start).
  - intros t l. reflexivity.
  - vm_compute. reflexivity.
Defined.

(** ** Self-referential schemas *)

Lemma scalar_not_normalized (x : string) : isScalar (normalizeMessage x) = false.
Proof.
  pose proof (normalizeMessage_capitalised x) as Hcap.
  destruct (isScalar (normalizeMessage x)) eqn:E; [|done].
  apply bool_decide_eq_true in E.
  repeat (apply elem_of_cons in E as [E|E]); [..|by apply elem_of_nil in E];
    rewrite E in Hcap; cbn in Hcap; discriminate Hcap.
Qed.

(** X22. A normalized type name is never one of the seven scalar type
    names: a field whose type was synthesized is never taken for a scalar
    and so never gets the optional qualifier. *)
Theorem synthesized_type_not_scalar (x : string) :
  asciiText x = true → isScalar (normalizeMessage x) = false.
Proof. intros _. apply scalar_not_normalized. Qed.

Lemma synthesized_type_not_scalar_witness :
  normalizeMessage "string" = "String" ∧ isScalar (normalizeMessage "string") = false.
Proof.
  split; [reflexivity|]. apply (synthesized_type_not_scalar "string"). reflexivity.
Defined.

Lemma length_append (a b : string) :
  String.length (a +:+ b) = String.length a + String.length b.
Proof. induction a as [|c a IH]; [done|]. rewrite append_cons. cbn. by rewrite IH. Qed.

Lemma append_longer (a b : string) : b ≠ EmptyString → a +:+ b ≠ a.
Proof.
  intros Hb E. apply (f_equal String.length) in E. rewrite length_append in E.
  destruct b; [done|]. cbn in E. lia.
Qed.

Lemma keys_singleton {V} (k : string) (v : V) : keys ({[ k := v ]} : gmap string V) = [k].
Proof. unfold keys. by rewrite map_to_list_singleton. Qed.

Lemma fieldType_self (doc : Registry) (k r : string) (fuel : nat) :
  r ≠ EmptyString → doc !! lastSegment r = Some (Some (nodeWith k r)) →
  fieldType (S fuel) doc k (Some (Reference r))
  = Ok (normalizeMessage k, Some (normalizeMessage k, nodeWith k r)).
Proof.
  intros Hr Hdoc. cbn [fieldType]. rewrite resolveRef_unfold. cbn [Ref Reference].
  destruct (String.eqb_spec r "") as [|_]; [done|]. rewrite Hdoc. reflexivity.
Qed.

Lemma copies_shift (a b : string) (j : nat) :
  (a +:+ b) +:+ copies b j = a +:+ copies b (S j).
Proof. cbn [copies]. by rewrite append_assoc. Qed.

Lemma self_reference_loop order (g : genContext) (k r : string) :
  validOrder order → r ≠ EmptyString →
  doc g !! lastSegment r = Some (Some (nodeWith k r)) →
  normalizeMessage k ≠ EmptyString →
  ∀ fuel name st,
    normalizeMessage name = name →
    (∀ j, name +:+ copies (normalizeMessage k) j ∉ visited st) →
    emitSchema order g fuel name (Some (nodeWith k r)) st = OutOfFuel.
Proof.
  intros Hord Hr Hdoc Hk. induction fuel as [|fuel IH]; intros name st Hname Hfree; [done|].
  cbn [emitSchema]. unfold isVisited. rewrite bool_decide_eq_false_2.
  2:{ specialize (Hfree 0). cbn [copies] in Hfree. by rewrite append_nil_r in Hfree. }
  rewrite resolveRef_no_ref by done.
  change (0 <? length (Enum (nodeWith k r))) with false.
  change (isMessageShaped (nodeWith k r)) with true. cbv beta iota.
  unfold emitMessageWith, emitBody.
  set (st1 := write _ (markVisited name st)).
  destruct (mergeAllOf_spec order g (nodeWith k r) st1 Hord (Forall_nil_2 _))
    as (merged & st2 & -> & _ & Hprops & Hout & Hvis).
  rewrite bind_Ok. cbv beta iota.
  assert (propsOf merged = {[ k := Some (Reference r) ]}) as Hm.
  { rewrite Hprops. cbn. apply (right_id_L ∅ (∪)). }
  destruct (propNames_spec order g merged st2 Hord) as [Hnames Hst3].
  destruct (propNames order g merged st2) as [names st3]. cbn [fst snd] in Hnames, Hst3.
  rewrite Hm, keys_singleton in Hnames. apply Permutation_singleton_r in Hnames. subst names st3.
  cbn [forEach]. unfold emitProperty at 1. unfold index. rewrite Hm, lookup_singleton_eq.
  cbn [mjoin option_join toEmit gen fieldNum].
  destruct fuel as [|fuel']; [done|].
  rewrite (fieldType_self _ _ _ _ Hr Hdoc), bind_Ok. cbv beta iota.
  unfold flatten. rewrite normalizeMessage_flat, Hname.
  unfold isVisited. rewrite bool_decide_eq_false_2.
  2:{ cbn [visited nextTick]. rewrite Hvis. subst st1. cbn [visited write markVisited].
      intros [E|E]%elem_of_union.
      - apply elem_of_singleton in E. by apply append_longer in E.
      - apply (Hfree 1). cbn [copies]. by rewrite append_nil_r. }
  rewrite !bind_Ok. unfold emitMapEntries. cbn [AddlProps nodeWith object].
  rewrite !bind_Ok. unfold emitOneOf. cbn [OneOf nodeWith object elems default length Nat.ltb Nat.leb].
  rewrite !bind_Ok. unfold emitAnyOf. cbn [AnyOf nodeWith object elems default].
  rewrite !bind_Ok. unfold drain. cbn [toEmit app forEach fst snd].
  rewrite IH; [done| |].
  - rewrite <- Hname, <- normalizeMessage_flat.
    apply normalizeMessage_fixed;
      [apply normalizeMessage_separatorFree|apply normalizeMessage_capitalised].
  - intros j. rewrite copies_shift.
    cbn [gen visited write Description Reference String.eqb negb nextTick].
    rewrite Hvis. subst st1. cbn [visited write markVisited].
    intros [E|E]%elem_of_union.
    + apply elem_of_singleton in E. apply append_longer in E; [done|].
      cbn [copies]. destruct (normalizeMessage k); done.
    + by apply (Hfree (S j)).
Qed.

(** X23. A schema with a property that refers back to the schema itself
    is never finished: each round defers the same schema under a longer
    name, so the emitter exceeds every recursion bound (the Go program
    recurses until its stack is exhausted). *)
Theorem self_reference_never_returns order (g : genContext) (k r name : string)
    (fuel : nat) (st : genState) :
  validOrder order →
  asciiText k = true → asciiText name = true →
  r ≠ EmptyString →
  doc g !! lastSegment r = Some (Some (nodeWith k r)) →
  normalizeMessage k ≠ EmptyString →
  normalizeMessage name = name →
  (∀ j, name +:+ copies (normalizeMessage k) j ∉ visited st) →
  emitSchema order g fuel name (Some (nodeWith k r)) st = OutOfFuel.
Proof.
  intros Hord _ _ Hr Hdoc Hk Hname Hfree. by apply self_reference_loop.
Qed.

Lemma self_reference_never_returns_witness :
  emitSchema orderAsListed (context treeRegistry true) 50 "Node"
    (Some (nodeWith "next" "#/components/schemas/Node")) start = OutOfFuel.
Proof.
  apply (self_reference_never_returns orderAsListed (context treeRegistry true)
           "next" "#/components/schemas/Node" "Node" 50 start).
  - intros t l. reflexivity.
  - reflexivity.
  - reflexivity.
  - discriminate.
  - vm_compute. reflexivity.
  - vm_compute. discriminate.
  - reflexivity.
  - intros j. cbn. set_solver.
Defined.

